(** * Markdown optimizer: heading repair, noise removal, front-matter

    A shallow embedding of [markdown-optimizer/scripts/optimize_markdown.py].

    Python strings are modelled as lists of 8-bit characters (code points
    0..255); the character classes of [re] and [str] are the ones Python
    uses on that range.  The regular expressions of the script are kept
    as regular expressions and run by a small backtracking matcher that
    enumerates the matches in the order Python's engine tries them. *)

From Stdlib Require Import String DecimalString.
From Stdlib Require Import List Ascii Arith Bool Lia.
From Stdlib Require Import Sorted Permutation.
Import ListNotations.

(** ** Strings *)

Module Str.

Definition str := list ascii.

Definition lit (s : String.string) : str := String.list_ascii_of_string s.
Arguments lit s%_string.

Definition nl : ascii := "010"%char.
Definition hash : ascii := "#"%char.
Definition dash : ascii := "-"%char.
Definition star : ascii := "*"%char.
Definition space : ascii := " "%char.
Definition quote : ascii := "034"%char.

Definition code (c : ascii) : nat := nat_of_ascii c.

Definition in_range (lo hi : nat) (c : ascii) : bool :=
  (lo <=? code c) && (code c <=? hi).

(** [str.isspace] and the class [\s] of [re] on str patterns:
    TAB..CR, FS..US, SPACE, NEL (0x85) and NBSP (0xA0). *)
Definition is_space (c : ascii) : bool :=
  in_range 9 13 c || in_range 28 32 c || (code c =? 133) || (code c =? 160).

Definition is_upper_az (c : ascii) : bool := in_range 65 90 c.
Definition is_lower_az (c : ascii) : bool := in_range 97 122 c.

(** The class [\w]: [str.isalnum] or the underscore. *)
Definition is_word (c : ascii) : bool :=
  in_range 48 57 c || is_upper_az c || is_lower_az c || (code c =? 95)
  || (code c =? 170) || (code c =? 178) || (code c =? 179) || (code c =? 181)
  || (code c =? 185) || (code c =? 186) || in_range 188 190 c
  || in_range 192 214 c || in_range 216 246 c || in_range 248 255 c.

Definition eqc (a b : ascii) : bool := Ascii.eqb a b.

Fixpoint eqs (a b : str) : bool :=
  match a, b with
  | [], [] => true
  | x :: a', y :: b' => eqc x y && eqs a' b'
  | _, _ => false
  end.

Fixpoint take_while (p : ascii -> bool) (s : str) : str :=
  match s with
  | c :: s' => if p c then c :: take_while p s' else []
  | [] => []
  end.

Fixpoint drop_while (p : ascii -> bool) (s : str) : str :=
  match s with
  | c :: s' => if p c then drop_while p s' else s
  | [] => []
  end.

(** [s.lstrip()], [s.rstrip()], [s.strip()] *)
Definition lstrip (s : str) : str := drop_while is_space s.
Definition rstrip (s : str) : str := rev (drop_while is_space (rev s)).
Definition strip (s : str) : str := rstrip (lstrip s).

(** [s.lstrip('\n')] *)
Definition lstrip_nl (s : str) : str := drop_while (eqc nl) s.

(** [s.split(d)] for a one-character separator [d] *)
Fixpoint split_on (d : ascii) (s : str) : list str :=
  match s with
  | [] => [[]]
  | c :: s' =>
      if eqc c d then [] :: split_on d s'
      else match split_on d s' with
           | l :: ls => (c :: l) :: ls
           | [] => [[c]]
           end
  end.

(** [s.split('\n')] *)
Definition split_nl (s : str) : list str := split_on nl s.

(** [sep.join(ls)] *)
Fixpoint join (sep : str) (ls : list str) : str :=
  match ls with
  | [] => []
  | [l] => l
  | l :: ls' => l ++ sep ++ join sep ls'
  end.

Definition join_nl (ls : list str) : str := join [nl] ls.

(** [s.startswith(p)] *)
Fixpoint startswith (p s : str) : bool :=
  match p, s with
  | [], _ => true
  | x :: p', y :: s' => eqc x y && startswith p' s'
  | _ :: _, [] => false
  end.

(** [sub in s] *)
Fixpoint contains (sub s : str) : bool :=
  startswith sub s ||
  match s with
  | [] => false
  | _ :: s' => contains sub s'
  end.

(** First occurrence of a non-empty [sep]: the text before it and the
    text after it. *)
Fixpoint partition_at (sep s : str) : option (str * str) :=
  if startswith sep s then Some ([], skipn (length sep) s)
  else match s with
       | [] => None
       | c :: s' =>
           match partition_at sep s' with
           | Some (a, b) => Some (c :: a, b)
           | None => None
           end
       end.

(** [s.split(sep, maxsplit)] for a non-empty [sep] *)
Fixpoint split_max (sep : str) (maxsplit : nat) (s : str) : list str :=
  match maxsplit with
  | 0 => [s]
  | S n =>
      match partition_at sep s with
      | Some (a, b) => a :: split_max sep n b
      | None => [s]
      end
  end.

(** [s.lower()]: A..Z and the upper-case letters 0xC0..0xDE (but the
    multiplication sign 0xD7) move up by 32. *)
Definition lower_char (c : ascii) : ascii :=
  if is_upper_az c || (in_range 192 222 c && negb (code c =? 215))
  then ascii_of_nat (code c + 32) else c.

Definition lower (s : str) : str := map lower_char s.

(** [str(n)] for a non-negative integer *)
Definition of_nat (n : nat) : str :=
  lit (DecimalString.NilZero.string_of_uint (Nat.to_uint n)).

Definition is_blank (s : str) : bool :=
  match strip s with [] => true | _ => false end.

End Str.

Import Str.

(** ** Regular expressions *)

Module Regex.

Inductive regex : Type :=
| Chr (p : ascii -> bool)
| Bol
| Eol
| Wordb
| Cat (r1 r2 : regex)
| Rep (r : regex) (lo : nat) (hi : option nat)
| Grp (i : nat) (r : regex).

(** A position of the matcher: the text already consumed (latest
    character first), the text ahead, and the groups closed so far. *)
Record mstate : Type := MState {
  seen : str;
  rest : str;
  groups : list (nat * str)
}.

Definition start (s : str) : mstate := MState [] s [].

Definition at_word (s : str) : bool :=
  match s with c :: _ => is_word c | [] => false end.

Definition consumed (s s' : mstate) : str :=
  firstn (length (rest s) - length (rest s')) (rest s).

Definition close_group (i : nat) (s s' : mstate) : mstate :=
  MState (seen s') (rest s') ((i, consumed s s') :: groups s').

(** Greedy repetition: one more round of [step] is tried before
    stopping; a round has to consume text. *)
Fixpoint rep (step : mstate -> list mstate) (fuel lo : nat)
    (hi : option nat) (s : mstate) : list mstate :=
  let stop := match lo with 0 => [s] | _ => [] end in
  match fuel with
  | 0 => stop
  | S f =>
      match hi with
      | Some 0 => []
      | _ =>
          flat_map
            (fun s' =>
               if length (rest s') <? length (rest s)
               then rep step f (pred lo) (option_map pred hi) s'
               else [])
            (step s)
      end ++ stop
  end.

(** All ways [r] matches at position [s], best first. *)
Fixpoint run (r : regex) (s : mstate) : list mstate :=
  match r with
  | Chr p =>
      match rest s with
      | c :: t => if p c then [MState (c :: seen s) t (groups s)] else []
      | [] => []
      end
  | Bol => match seen s with [] => [s] | _ => [] end
  | Eol =>
      match rest s with
      | [] => [s]
      | [c] => if eqc c nl then [s] else []
      | _ => []
      end
  | Wordb => if xorb (at_word (seen s)) (at_word (rest s)) then [s] else []
  | Cat r1 r2 => flat_map (run r2) (run r1 s)
  | Rep r' lo hi => rep (run r') (length (rest s)) lo hi s
  | Grp i r' => map (close_group i s) (run r' s)
  end.

(** [re.match(r, s)] *)
Definition re_match (r : regex) (s : str) : option mstate :=
  hd_error (run r (start s)).

(** [m.group(i)] *)
Fixpoint lookup_group (i : nat) (gs : list (nat * str)) : str :=
  match gs with
  | (j, t) :: gs' => if i =? j then t else lookup_group i gs'
  | [] => []
  end.

Definition group (i : nat) (m : mstate) : str := lookup_group i (groups m).

(** [re.search] from the current position on: the first position where
    [r] matches, with that match. *)
Fixpoint search_from (r : regex) (fuel : nat) (s : mstate)
  : option (mstate * mstate) :=
  match hd_error (run r s) with
  | Some s' => Some (s, s')
  | None =>
      match fuel, rest s with
      | S f, c :: t => search_from r f (MState (c :: seen s) t (groups s))
      | _, _ => None
      end
  end.

(** [re.findall(r, s)] for a pattern without groups whose matches are
    never empty: the matched texts from left to right. *)
Fixpoint findall_from (r : regex) (fuel : nat) (s : mstate) : list str :=
  match fuel with
  | 0 => []
  | S f =>
      match search_from r (length (rest s)) s with
      | Some (s0, s1) =>
          if length (rest s1) <? length (rest s0)
          then consumed s0 s1 :: findall_from r f s1
          else []
      | None => []
      end
  end.

Definition findall (r : regex) (s : str) : list str :=
  findall_from r (S (length s)) (start s).

(** [re.sub(r, repl, s)] for a pattern whose matches are never empty. *)
Fixpoint sub_from (r : regex) (repl : str) (fuel : nat) (s : mstate) : str :=
  match fuel with
  | 0 => rest s
  | S f =>
      match hd_error (run r s) with
      | Some s' =>
          if length (rest s') <? length (rest s)
          then repl ++ sub_from r repl f s'
          else rest s
      | None =>
          match rest s with
          | c :: t => c :: sub_from r repl f (MState (c :: seen s) t (groups s))
          | [] => []
          end
      end
  end.

Definition sub (r : regex) (repl s : str) : str :=
  sub_from r repl (S (length s)) (start s).

Definition any_char (c : ascii) : bool := negb (eqc c nl).
Definition chr_is (a : ascii) (c : ascii) : bool := eqc c a.
Definition star_of (r : regex) : regex := Rep r 0 None.
Definition plus_of (r : regex) : regex := Rep r 1 None.

End Regex.

Import Regex.

(** ** The optimizer *)

Module MarkdownOptimizer.

(** The fields of the object that the methods read. *)
Record optimizer : Type := Optimizer {
  original_content : str;
  source_path : str;
  lines : list str
}.

(** [MarkdownOptimizer(content, source_path)] *)
Definition init (content source_path : str) : optimizer :=
  Optimizer content source_path (split_nl content).

Record heading : Type := Heading {
  level : nat;
  text : str;
  line : nat
}.

(** [^(#{1,6})\s+(.+)$] *)
Definition heading_re : regex :=
  Cat Bol
    (Cat (Grp 1 (Rep (Chr (chr_is hash)) 1 (Some 6)))
       (Cat (plus_of (Chr is_space))
          (Cat (Grp 2 (plus_of (Chr any_char))) Eol))).

Fixpoint extract_from (i : nat) (ls : list str) : list heading :=
  match ls with
  | [] => []
  | l :: ls' =>
      match re_match heading_re l with
      | Some m =>
          Heading (length (group 1 m)) (strip (group 2 m)) i
          :: extract_from (S i) ls'
      | None => extract_from (S i) ls'
      end
  end.

Definition extract_headings (self : optimizer) : list heading :=
  extract_from 0 (lines self).

(** [d[k] = v] on a dict kept in insertion order *)
Fixpoint dict_set (d : list (nat * nat)) (k v : nat) : list (nat * nat) :=
  match d with
  | [] => [(k, v)]
  | (k', v') :: d' =>
      if k' =? k then (k, v) :: d' else (k', v') :: dict_set d' k v
  end.

(** The loop that fills [adjustments]. *)
Fixpoint adjust (hs : list heading) (expected_level : nat)
    (adjustments : list (nat * nat)) : list (nat * nat) :=
  match hs with
  | [] => adjustments
  | h :: hs' =>
      let current_level := level h in
      if expected_level + 1 <? current_level
      then adjust hs' (expected_level + 1)
             (dict_set adjustments (line h) (expected_level + 1))
      else adjust hs' current_level
             (dict_set adjustments (line h) current_level)
  end.

(** [ls[i] = v] for [i] in range *)
Fixpoint list_set (ls : list str) (i : nat) (v : str) : list str :=
  match ls, i with
  | [], _ => []
  | _ :: ls', 0 => v :: ls'
  | l :: ls', S i' => l :: list_set ls' i' v
  end.

(** The loop that applies [adjustments]; [None] is the [IndexError] of
    [lines[line_num]]. *)
Fixpoint apply_adjustments (adjustments : list (nat * nat))
    (ls : list str) : option (list str) :=
  match adjustments with
  | [] => Some ls
  | (line_num, new_level) :: rest_adj =>
      match nth_error ls line_num with
      | None => None
      | Some old_line =>
          match re_match heading_re old_line with
          | Some m =>
              apply_adjustments rest_adj
                (list_set ls line_num
                   (repeat hash new_level ++ [space] ++ group 2 m))
          | None => apply_adjustments rest_adj ls
          end
      end
  end.

Definition normalize_heading_hierarchy (self : optimizer) : option str :=
  let content := original_content self in
  let headings := extract_headings self in
  match headings with
  | [] => Some content
  | _ =>
      match apply_adjustments (adjust headings 1 []) (split_nl content) with
      | Some ls => Some (join_nl ls)
      | None => None
      end
  end.

(** [generate_toc] *)
Record toc_entry : Type := TocEntry {
  toc_level : nat;
  toc_text : str;
  anchor : str
}.

(** [[^\w\s-]] and [[-\s]+] *)
Definition anchor_drop_re : regex :=
  Chr (fun c => negb (is_word c || is_space c || eqc c dash)).
Definition anchor_run_re : regex :=
  plus_of (Chr (fun c => eqc c dash || is_space c)).

Definition generate_toc (self : optimizer) : list toc_entry :=
  map (fun h =>
         let a := lower (text h) in
         let a := sub anchor_drop_re [] a in
         let a := sub anchor_run_re [dash] a in
         TocEntry (level h) (text h) a)
      (extract_headings self).

(** [[#*`_\[\]()]] *)
Definition markup_re : regex :=
  Chr (fun c => existsb (eqc c) (lit "#*`_[]()")).

(** [\b[A-Z][a-z]+(?:[A-Z][a-z]+)*\b] *)
Definition camel_re : regex :=
  Cat Wordb
    (Cat (Chr is_upper_az)
       (Cat (plus_of (Chr is_lower_az))
          (Cat (star_of (Cat (Chr is_upper_az) (plus_of (Chr is_lower_az))))
             Wordb))).

(** [\b[A-Z]{2,}\b] *)
Definition acronym_re : regex :=
  Cat Wordb (Cat (Rep (Chr is_upper_az) 2 None) Wordb).

(** [Counter(words)]: the distinct words in the order of their first
    occurrence, each with its count. *)
Fixpoint counter_add (w : str) (d : list (str * nat)) : list (str * nat) :=
  match d with
  | [] => [(w, 1)]
  | (k, n) :: d' =>
      if eqs k w then (k, S n) :: d' else (k, n) :: counter_add w d'
  end.

Definition Counter (words : list str) : list (str * nat) :=
  fold_left (fun d w => counter_add w d) words [].

(** [sorted(items, key=count, reverse=True)]: stable, so an item stays
    ahead of the later items of the same count. *)
Fixpoint insert_desc (x : str * nat) (l : list (str * nat))
  : list (str * nat) :=
  match l with
  | [] => [x]
  | y :: l' => if snd y <=? snd x then x :: l else y :: insert_desc x l'
  end.

Fixpoint sorted_desc (l : list (str * nat)) : list (str * nat) :=
  match l with
  | [] => []
  | x :: l' => insert_desc x (sorted_desc l')
  end.

(** [c.most_common(n)] *)
Definition most_common (n : nat) (c : list (str * nat)) : list (str * nat) :=
  firstn n (sorted_desc c).

(** The list [words] of [extract_key_concepts]. *)
Definition concept_words (self : optimizer) : list str :=
  let text := sub markup_re [] (original_content self) in
  findall camel_re text ++ findall acronym_re text.

Definition extract_key_concepts (self : optimizer) : list str :=
  map fst (most_common 10 (Counter (concept_words self))).

Definition estimate_tokens (text : str) : nat := length text / 4.

Inductive diagram_type : Type := Flowchart | Graph | Architecture.

Definition diagram_name (t : diagram_type) : str :=
  match t with
  | Flowchart => lit "flowchart"
  | Graph => lit "graph"
  | Architecture => lit "architecture"
  end.

Record opportunity : Type := Opportunity {
  opp_heading : str;
  opp_type : diagram_type;
  opp_line : nat
}.

Definition process_indicators : list str :=
  [lit "step 1"; lit "step 2"; lit "first"; lit "then"; lit "next";
   lit "finally"; lit "process:"; lit "workflow:"; lit "procedure:"].

Definition relationship_indicators : list str :=
  [lit "depends on"; lit "related to"; lit "connects to";
   lit "inherits from"; lit "composed of"; lit "hierarchy";
   lit "relationship between"].

Definition architecture_indicators : list str :=
  [lit "architecture"; lit "component"; lit "system design";
   lit "structure"; lit "module"; lit "layer"; lit "interface"].

(** [any(ind in section_text for ind in indicators)] *)
Definition any_in (indicators : list str) (section_text : str) : bool :=
  existsb (fun ind => contains ind section_text) indicators.

(** The [if]/[elif] chain that picks [diagram_type]. *)
Definition classify (section_text : str) : option diagram_type :=
  if any_in process_indicators section_text then Some Flowchart
  else if any_in relationship_indicators section_text then Some Graph
  else if any_in architecture_indicators section_text then Some Architecture
  else None.

(** The inner loop: the line of the first heading after [section_start]. *)
Fixpoint next_heading (headings : list heading) (section_start : nat)
  : option nat :=
  match headings with
  | [] => None
  | next_h :: hs =>
      if section_start <? line next_h then Some (line next_h)
      else next_heading hs section_start
  end.

(** [lines[a:b]] *)
Definition slice (ls : list str) (a b : nat) : list str :=
  firstn (b - a) (skipn a ls).

Definition section_text_of (self : optimizer) (headings : list heading)
    (h : heading) : str :=
  let section_start := line h in
  let section_end :=
    match next_heading headings section_start with
    | Some (S n) => S n
    | _ => length (lines self)
    end in
  lower (join_nl (slice (lines self) section_start section_end)).

Definition identify_diagram_opportunities (self : optimizer)
  : list opportunity :=
  let headings := extract_headings self in
  flat_map
    (fun h =>
       match classify (section_text_of self headings h) with
       | Some t => [Opportunity (text h) t (line h)]
       | None => []
       end)
    headings.

(** [^\s*---+\s*$] and [^\s*\*\*\*+\s*$] *)
Definition rule_re (c : ascii) : regex :=
  Cat Bol
    (Cat (star_of (Chr is_space))
       (Cat (Chr (chr_is c))
          (Cat (Chr (chr_is c))
             (Cat (plus_of (Chr (chr_is c)))
                (Cat (star_of (Chr is_space)) Eol))))).

Definition noise_patterns : list regex := [rule_re dash; rule_re star].

Definition is_noise (l : str) : bool :=
  existsb (fun pattern =>
             match re_match pattern l with Some _ => true | None => false end)
          noise_patterns.

Definition is_delimiter (l : str) : bool := eqs (strip l) (lit "---").

(** The local variables of the loop of [remove_noise]. *)
Record noise_state : Type := NoiseState {
  in_frontmatter : bool;
  frontmatter_count : nat;
  cleaned : list str
}.

(** [cleaned and not cleaned[-1].strip()] *)
Definition ends_blank (cleaned : list str) : bool :=
  match cleaned with
  | [] => false
  | _ => is_blank (last cleaned [])
  end.

(** One round of the loop of [remove_noise]. *)
Definition noise_step (st : noise_state) (l : str) : noise_state :=
  let count :=
    if is_delimiter l then S (frontmatter_count st)
    else frontmatter_count st in
  if is_delimiter l && (count <=? 2)
  then NoiseState (negb (in_frontmatter st)) count (cleaned st ++ [l])
  else if negb (in_frontmatter st) && is_noise l
  then NoiseState (in_frontmatter st) count (cleaned st)
  else if is_blank l && ends_blank (cleaned st)
  then NoiseState (in_frontmatter st) count (cleaned st)
  else NoiseState (in_frontmatter st) count (cleaned st ++ [l]).

Definition remove_noise_lines (ls : list str) : list str :=
  cleaned (fold_left noise_step ls (NoiseState false 0 [])).

Definition remove_noise (content : str) : str :=
  join_nl (remove_noise_lines (split_nl content)).

(** [Path(p).stem] for a POSIX path: the last component that is neither
    empty nor a single dot, without its last suffix; a dot at the start
    or at the end of the name starts no suffix. *)
Definition path_name (p : str) : str :=
  last (filter (fun x => negb (eqs x []) && negb (eqs x (lit ".")))
               (split_on "/"%char p)) [].

Fixpoint rfind (c : ascii) (s : str) : option nat :=
  match s with
  | [] => None
  | x :: s' =>
      match rfind c s' with
      | Some i => Some (S i)
      | None => if eqc x c then Some 0 else None
      end
  end.

Definition path_stem (p : str) : str :=
  let name := path_name p in
  match rfind "."%char name with
  | Some i =>
      if (0 <? i) && (i <? length name - 1) then firstn i name else name
  | None => name
  end.

(** [next((h['text'] for h in headings if h['level'] == 1), default)] *)
Fixpoint first_h1 (headings : list heading) (default : str) : str :=
  match headings with
  | [] => default
  | h :: hs => if level h =? 1 then text h else first_h1 hs default
  end.

Definition title_of (self : optimizer) (headings : list heading) : str :=
  first_h1 headings
    (match source_path self with
     | [] => lit "Untitled"
     | _ => path_stem (source_path self)
     end).

(** [f'title: "{title}"'] *)
Definition title_line (title : str) : str :=
  lit "title: " ++ [quote] ++ title ++ [quote].

Definition concept_lines (concepts : list str) : list str :=
  match concepts with
  | [] => []
  | _ => lit "concepts:" :: map (fun c => lit "  - " ++ c) (firstn 5 concepts)
  end.

Definition toc_lines (toc : list toc_entry) : list str :=
  match toc with
  | [] => []
  | _ =>
      lit "toc:"
      :: map (fun item =>
                concat (repeat (lit "  ") (toc_level item - 1))
                ++ lit "- " ++ toc_text item)
             toc
  end.

Definition diagram_lines (diagrams : list opportunity) : list str :=
  match diagrams with
  | [] => []
  | _ =>
      lit "suggested_diagrams:"
      :: flat_map
           (fun d =>
              [lit "  - section: " ++ [quote] ++ opp_heading d ++ [quote];
               lit "    type: " ++ diagram_name (opp_type d)])
           diagrams
  end.

Definition frontmatter_lines (self : optimizer) : list str :=
  let headings := extract_headings self in
  let toc := generate_toc self in
  let concepts := extract_key_concepts self in
  let diagrams := identify_diagram_opportunities self in
  let title := title_of self headings in
  let token_count := estimate_tokens (original_content self) in
  [lit "---";
   title_line title;
   lit "tokens: " ++ of_nat token_count;
   lit "optimized_for_llm: true"]
  ++ concept_lines concepts
  ++ toc_lines toc
  ++ diagram_lines diagrams
  ++ [lit "---"].

Definition generate_frontmatter (self : optimizer) : str :=
  join_nl (frontmatter_lines self).

(** Step 3 of [optimize]. *)
Definition strip_frontmatter (content : str) : str :=
  if startswith (lit "---") content then
    match split_max (lit "---") 2 content with
    | _ :: _ :: part2 :: _ => lstrip_nl part2
    | _ => content
    end
  else content.

(** The text handed to the front-matter generator by [optimize]. *)
Definition body_of (self : optimizer) : option str :=
  match normalize_heading_hierarchy self with
  | None => None
  | Some content => Some (strip_frontmatter (remove_noise content))
  end.

Definition optimize (self : optimizer) : option str :=
  match body_of self with
  | None => None
  | Some content =>
      let self' :=
        Optimizer content (source_path self) (split_nl content) in
      let frontmatter := generate_frontmatter self' in
      Some (frontmatter ++ [nl; nl] ++ content)
  end.

End MarkdownOptimizer.

Import MarkdownOptimizer.

(** ** Vocabulary of the specification and of the proofs *)

(** The character [d] does not occur in [l]. *)
Definition free_of (d : ascii) (l : str) : Prop :=
  forallb (fun c => negb (eqc c d)) l = true.

(** The position [k] characters further on. *)
Definition advance (k : nat) (s : mstate) : mstate :=
  MState (rev (firstn k (rest s)) ++ seen s) (skipn k (rest s)) (groups s).

(** [k] respects the upper bound of a repetition. *)
Definition within (k : nat) (hi : option nat) : Prop :=
  match hi with Some h => k <= h | None => True end.

(** A heading line: 1 to 6 [#], then whitespace [w], then text [t]. *)
Definition heading_shape (l : str) (h : nat) (w t : str) : Prop :=
  l = repeat hash h ++ w ++ t /\ 1 <= h <= 6 /\
  w <> [] /\ forallb is_space w = true /\ t <> [].

(** The length of the leading run of [#] of a line, and what follows
    that run. *)
Definition hashes (l : str) : nat := length (take_while (chr_is hash) l).
Definition after_hashes (l : str) : str := drop_while (chr_is hash) l.

(** The level that the loop of [normalize_heading_hierarchy] assigns. *)
Definition clamp (expected_level current_level : nat) : nat :=
  if expected_level + 1 <? current_level then expected_level + 1
  else current_level.

(** The content of [adjustments] after the loop. *)
Fixpoint plan (expected_level : nat) (hs : list heading) : list (nat * nat) :=
  match hs with
  | [] => []
  | h :: hs' =>
      (line h, clamp expected_level (level h))
      :: plan (clamp expected_level (level h)) hs'
  end.

(** The headings with their new levels. *)
Fixpoint relevel (expected_level : nat) (hs : list heading) : list heading :=
  match hs with
  | [] => []
  | h :: hs' =>
      Heading (clamp expected_level (level h)) (text h) (line h)
      :: relevel (clamp expected_level (level h)) hs'
  end.

(** The lines after both loops. *)
Fixpoint normalize_lines (expected_level : nat) (ls : list str) : list str :=
  match ls with
  | [] => []
  | l :: ls' =>
      match re_match heading_re l with
      | Some m =>
          let n := clamp expected_level (length (group 1 m)) in
          (repeat hash n ++ [space] ++ group 2 m) :: normalize_lines n ls'
      | None => l :: normalize_lines expected_level ls'
      end
  end.

(** The extractor records a heading for line [i] of the document. *)
Definition records_heading (content src : str) (i : nat) : Prop :=
  exists hd, In hd (extract_headings (init content src)) /\ line hd = i.

(** No level is more than one deeper than the level before it. *)
Definition no_jump (levels : list nat) : Prop :=
  forall i a b,
    nth_error levels i = Some a -> nth_error levels (S i) = Some b ->
    b <= a + 1.

(** C2 as the specification words it: the heading texts are kept, the
    number of lines is kept, a line that is not a heading is kept, and
    on every line only the length of the leading run of [#] changes. *)
Definition only_hash_run_changes (content src : str) : Prop :=
  exists out,
    normalize_heading_hierarchy (init content src) = Some out /\
    map text (extract_headings (init out src))
    = map text (extract_headings (init content src)) /\
    length (split_nl out) = length (split_nl content) /\
    forall i l l',
      nth_error (split_nl content) i = Some l ->
      nth_error (split_nl out) i = Some l' ->
      after_hashes l' = after_hashes l /\
      ((forall h w t, ~ heading_shape l h w t) -> l' = l).

(** C9 as the specification words it, with blanks only between the
    [#] and the text. *)
Definition blank_shape (l : str) : Prop :=
  exists h k t,
    l = repeat hash h ++ repeat space k ++ t /\
    1 <= h <= 6 /\ 1 <= k /\ t <> [].

(** C9 as the specification words it: a heading is recorded exactly
    for the lines of that shape. *)
Definition headings_iff_blank_shape (content src : str) : Prop :=
  forall i l,
    nth_error (split_nl content) i = Some l ->
    (records_heading content src i <-> blank_shape l).

(** [ind] occurs in [s]. *)
Definition occurs (ind s : str) : Prop := exists a b, s = a ++ ind ++ b.

(** [s] contains an indicator of the set. *)
Definition mentions (indicators : list str) (s : str) : Prop :=
  exists ind, In ind indicators /\ occurs ind s.

(** The classifier suggests a diagram of type [t] for heading [h]. *)
Definition suggests (self : optimizer) (h : heading) (t : diagram_type)
  : Prop :=
  In (Opportunity (text h) t (line h)) (identify_diagram_opportunities self).

(** Equality of strings is decidable. *)
Definition str_eq_dec : forall a b : str, {a = b} + {a <> b} :=
  list_eq_dec ascii_dec.

(** Number of occurrences of [w] in the list of words. *)
Definition count (w : str) (ws : list str) : nat := count_occ str_eq_dec ws w.

(** Index of the first occurrence of [w] in the list of words. *)
Fixpoint first_index (w : str) (ws : list str) : nat :=
  match ws with
  | [] => 0
  | x :: ws' => if eqs x w then 0 else S (first_index w ws')
  end.

(** [a] is ranked ahead of [b]: more frequent, or as frequent and first
    met earlier in the list of words. *)
Definition ranks_before (ws : list str) (a b : str) : Prop :=
  count b ws < count a ws \/
  (count a ws = count b ws /\ first_index a ws < first_index b ws).

(** The keys of a counter, and the count it holds for a key. *)
Definition keys (c : list (str * nat)) : list str := map fst c.

Fixpoint tally (k : str) (c : list (str * nat)) : nat :=
  match c with
  | [] => 0
  | (k', n) :: c' => if eqs k' k then n else tally k c'
  end.

(** Order of [sorted_desc]: larger count first, and [before] among
    equal counts. *)
Definition lex (before : str * nat -> str * nat -> Prop)
    (a b : str * nat) : Prop :=
  snd b < snd a \/ (snd a = snd b /\ before a b).

(** Position of the first occurrence of [w] in the text. *)
Fixpoint first_pos (w text : str) : nat :=
  match text with
  | [] => 0
  | _ :: t => if startswith w text then 0 else S (first_pos w t)
  end.

(** C7 as the specification words it: ties are broken by the first
    appearance in the document text. *)
Definition text_ranks_before (self : optimizer) (a b : str) : Prop :=
  let ws := concept_words self in
  count b ws < count a ws \/
  (count a ws = count b ws /\
   first_pos a (original_content self) < first_pos b (original_content self)).

(** C7 as the specification words it: the result is ranked by count,
    then by first appearance in the text. *)
Definition ranked_by_text_order (self : optimizer) : Prop :=
  StronglySorted (text_ranks_before self) (extract_key_concepts self).

(** A horizontal rule: three or more [-] or three or more [*], with
    whitespace around. *)
Definition rule_line (l : str) : Prop :=
  exists a n b c,
    l = a ++ repeat c n ++ b /\ 3 <= n /\
    forallb is_space a = true /\ forallb is_space b = true /\
    (c = dash \/ c = star).

(** The lines that the loop of [remove_noise] appends from [ls] on,
    given the flag, the counter and whether the last kept line is
    blank. *)
Fixpoint emit (fm : bool) (cnt : nat) (pb : bool) (ls : list str)
  : list str :=
  match ls with
  | [] => []
  | l :: ls' =>
      let count := if is_delimiter l then S cnt else cnt in
      if is_delimiter l && (count <=? 2)
      then l :: emit (negb fm) count (is_blank l) ls'
      else if negb fm && is_noise l then emit fm count pb ls'
      else if is_blank l && pb then emit fm count pb ls'
      else l :: emit fm count (is_blank l) ls'
  end.

(** Runs of blank lines collapsed to their first line. *)
Fixpoint squeeze (pb : bool) (ls : list str) : list str :=
  match ls with
  | [] => []
  | l :: ls' =>
      if is_blank l && pb then squeeze pb ls'
      else l :: squeeze (is_blank l) ls'
  end.

(** No line of [ls] is a delimiter line (trimmed text [---]). *)
Definition no_delimiter (ls : list str) : Prop :=
  Forall (fun l => is_delimiter l = false) ls.


(** A leading front-matter block: a delimiter line, the region [fm]
    without delimiter lines, a second delimiter line. *)
Definition frontmatter_block (ls : list str) (d1 : str) (fm : list str)
    (d2 : str) (post : list str) : Prop :=
  ls = d1 :: fm ++ d2 :: post /\
  is_delimiter d1 = true /\ is_delimiter d2 = true /\ no_delimiter fm.

(** C4 as the specification words it, for noise removal. *)
Definition frontmatter_kept_by_noise_removal (content : str) : Prop :=
  forall d1 fm d2 post,
    frontmatter_block (split_nl content) d1 fm d2 post ->
    exists post',
      remove_noise_lines (split_nl content) = d1 :: fm ++ d2 :: post'.

(** C4 as the specification words it, for the hierarchy
    normalization. *)
Definition frontmatter_kept_by_normalization (content src : str) : Prop :=
  forall d1 fm d2 post,
    frontmatter_block (split_nl content) d1 fm d2 post ->
    exists out post',
      normalize_heading_hierarchy (init content src) = Some out /\
      split_nl out = d1 :: fm ++ d2 :: post'.

(** A document whose front-matter holds a comment line, two empty
    lines and a key. *)
Definition commented_frontmatter : str :=
  join_nl [lit "---"; lit "### x"; []; []; lit "y"; lit "---";
           lit "z"].

(** The pipeline run on its own output, with the same source path. *)
Definition optimize_twice (content src : str) : option str :=
  match optimize (init content src) with
  | Some o => optimize (init o src)
  | None => None
  end.

(** The front-matter lines that [optimize] generates. *)
Definition final_frontmatter (self : optimizer) : option (list str) :=
  match body_of self with
  | Some body =>
      Some (frontmatter_lines
              (Optimizer body (source_path self) (split_nl body)))
  | None => None
  end.

(** C8 as the specification words it: the title falls back to the
    identifier itself. *)
Definition zero_headings_claim (content src : str) : Prop :=
  extract_headings (init content src) = [] ->
  exists fm,
    final_frontmatter (init content src) = Some fm /\
    ~ In (lit "toc:") fm /\
    ~ In (lit "suggested_diagrams:") fm /\
    In (title_line (match src with [] => lit "Untitled" | _ => src end)) fm.

(** *** Vocabulary of the further properties *)

(** The states of the loop of [remove_noise] that a run goes through:
    before the first delimiter line, between the first two, after the
    second. *)
Definition loop_state (fm : bool) (cnt : nat) : Prop :=
  (fm = false /\ cnt = 0) \/ (fm = true /\ cnt = 1) \/
  (fm = false /\ 2 <= cnt).

(** No blank line follows a blank line; [pb] tells whether a blank line
    comes just before the list. *)
Fixpoint spaced (pb : bool) (ls : list str) : Prop :=
  match ls with
  | [] => True
  | l :: ls' => (pb = true -> is_blank l = false) /\ spaced (is_blank l) ls'
  end.

(** A line that is neither blank nor a horizontal rule. *)
Definition content_line (l : str) : bool :=
  negb (is_blank l) && negb (is_noise l).

(** Level and text of a heading record. *)
Definition summary (h : heading) : nat * str := (level h, text h).

(** The numbers from [a] down to [lo]. *)
Fixpoint downto (a lo : nat) : list nat :=
  match a with
  | 0 => if lo =? 0 then [0] else []
  | S a' => if lo <=? S a' then S a' :: downto a' lo else []
  end.

(** The longest repetition of the class [p] that the bound [hi] and the
    text allow. *)
Definition longest (p : ascii -> bool) (hi : option nat) (r : str) : nat :=
  match hi with
  | Some h => Nat.min h (length (take_while p r))
  | None => length (take_while p r)
  end.

(** The first result of [g] along a list of candidates. *)
Fixpoint first_some {A : Type} (g : nat -> option A) (ks : list nat)
  : option A :=
  match ks with
  | [] => None
  | k :: ks' =>
      match g k with
      | Some a => Some a
      | None => first_some g ks'
      end
  end.

(** The text that the heading pattern captures in a heading line: what
    follows the [#] without its leading whitespace or, when only
    whitespace follows, the last character of the line. *)
Definition capture (l : str) : str :=
  match lstrip (after_hashes l) with
  | [] => [last (after_hashes l) space]
  | t => t
  end.

(** A line that noise removal keeps whatever the state of its loop:
    neither a delimiter line nor blank. *)
Definition plain_line (l : str) : Prop :=
  is_delimiter l = false /\ is_blank l = false.

(** The lines of the generated front-matter between its two delimiter
    lines. *)
Definition frontmatter_interior (self : optimizer) : list str :=
  [title_line (title_of self (extract_headings self));
   lit "tokens: " ++ of_nat (estimate_tokens (original_content self));
   lit "optimized_for_llm: true"]
  ++ concept_lines (extract_key_concepts self)
  ++ toc_lines (generate_toc self)
  ++ diagram_lines (identify_diagram_opportunities self).

(** An ASCII letter. *)
Definition is_letter (c : ascii) : bool := is_upper_az c || is_lower_az c.

(** A token of the concept extractor: an upper-case ASCII letter, then
    ASCII letters. *)
Definition token_shape (w : str) : Prop :=
  exists u t, w = u :: t /\ is_upper_az u = true /\
              forallb is_letter t = true.

(** From position [s] to position [s'] the matcher has consumed
    characters of the class [p] only. *)
Definition eats (p : ascii -> bool) (s s' : mstate) : Prop :=
  exists a, rest s = a ++ rest s' /\ forallb p a = true.

(** A character of an anchor: a dash or a word character, and neither
    whitespace nor an upper-case ASCII letter. *)
Definition anchor_char (c : ascii) : Prop :=
  (c = dash \/ is_word c = true) /\
  is_space c = false /\ is_upper_az c = false.

(** ** Facts about strings *)

Section StringFacts.

Lemma eqc_eq (a b : ascii) : eqc a b = true <-> a = b.
Proof. apply Ascii.eqb_eq. Qed.

Lemma eqc_refl (a : ascii) : eqc a a = true.
Proof. apply eqc_eq; reflexivity. Qed.

Lemma eqs_eq (a b : str) : eqs a b = true <-> a = b.
Proof.
  revert b; induction a as [|x a IH]; intros [|y b]; simpl;
    try (split; [discriminate | discriminate]); try tauto.
  rewrite andb_true_iff, eqc_eq, IH.
  split; [intros [-> ->]; reflexivity | intros [= -> ->]; auto].
Qed.

Lemma split_on_cons (d : ascii) (s : str) :
  exists l ls, split_on d s = l :: ls.
Proof.
  induction s as [|c s [l [ls E]]]; simpl; eauto.
  destruct (eqc c d); eauto. rewrite E; eauto.
Qed.

Lemma split_on_free (d : ascii) (s : str) :
  Forall (free_of d) (split_on d s).
Proof.
  induction s as [|c s IH]; simpl.
  - repeat constructor.
  - destruct (eqc c d) eqn:E.
    + constructor; [reflexivity | assumption].
    + destruct (split_on d s) as [|l ls]; inversion IH; subst;
        constructor; auto; unfold free_of; simpl; rewrite E; auto.
Qed.

Lemma join_split_on (d : ascii) (s : str) : join [d] (split_on d s) = s.
Proof.
  induction s as [|c s IH]; simpl; auto.
  destruct (eqc c d) eqn:E.
  - apply eqc_eq in E; subst c.
    destruct (split_on_cons d s) as [l [ls El]]. rewrite El in *.
    change (join [d] ([] :: l :: ls)) with (d :: join [d] (l :: ls)).
    rewrite IH. reflexivity.
  - destruct (split_on d s) as [|l ls] eqn:El.
    + destruct (split_on_cons d s) as [l [ls El']]; congruence.
    + destruct ls; simpl in *; rewrite <- IH; reflexivity.
Qed.

Lemma split_on_app_free (d : ascii) (l s : str) :
  free_of d l ->
  split_on d (l ++ d :: s) = l :: split_on d s.
Proof.
  induction l as [|c l IH]; simpl; intros F.
  - rewrite eqc_refl. reflexivity.
  - unfold free_of in F; simpl in F. apply andb_true_iff in F as [Fc Fl].
    apply negb_true_iff in Fc. rewrite Fc, (IH Fl). reflexivity.
Qed.

Lemma split_on_free_line (d : ascii) (l : str) :
  free_of d l -> split_on d l = [l].
Proof.
  induction l as [|c l IH]; simpl; intros F; auto.
  unfold free_of in F; simpl in F. apply andb_true_iff in F as [Fc Fl].
  apply negb_true_iff in Fc. rewrite Fc, (IH Fl). reflexivity.
Qed.

Lemma split_on_join (d : ascii) (ls : list str) :
  ls <> [] -> Forall (free_of d) ls -> split_on d (join [d] ls) = ls.
Proof.
  induction ls as [|l ls IH]; intros NE F; [congruence|].
  inversion F as [|? ? Fl Fls]; subst.
  destruct ls as [|l' ls].
  - simpl. apply split_on_free_line; assumption.
  - change (join [d] (l :: l' :: ls)) with (l ++ d :: join [d] (l' :: ls)).
    rewrite split_on_app_free by assumption.
    rewrite IH; auto; discriminate.
Qed.

Lemma split_nl_join_nl (ls : list str) :
  ls <> [] -> Forall (free_of nl) ls -> split_nl (join_nl ls) = ls.
Proof. apply split_on_join. Qed.

Lemma join_nl_split_nl (s : str) : join_nl (split_nl s) = s.
Proof. apply join_split_on. Qed.

Lemma split_nl_free (s : str) : Forall (free_of nl) (split_nl s).
Proof. apply split_on_free. Qed.

Lemma split_nl_nonempty (s : str) : split_nl s <> [].
Proof.
  unfold split_nl. destruct (split_on_cons nl s) as [l [ls E]].
  rewrite E; discriminate.
Qed.

Lemma take_drop_while (p : ascii -> bool) (s : str) :
  take_while p s ++ drop_while p s = s.
Proof.
  induction s as [|c s IH]; simpl; auto.
  destruct (p c); simpl; congruence.
Qed.

Lemma take_while_all (p : ascii -> bool) (s : str) :
  forallb p (take_while p s) = true.
Proof.
  induction s as [|c s IH]; simpl; auto.
  destruct (p c) eqn:E; simpl; auto. rewrite E; auto.
Qed.

Lemma take_while_app (p : ascii -> bool) (a b : str) :
  forallb p a = true ->
  take_while p (a ++ b) = a ++ take_while p b.
Proof.
  induction a as [|c a IH]; simpl; auto.
  intros H; apply andb_true_iff in H as [Hc Ha].
  rewrite Hc, IH; auto.
Qed.

Lemma drop_while_app (p : ascii -> bool) (a b : str) :
  forallb p a = true ->
  drop_while p (a ++ b) = drop_while p b.
Proof.
  induction a as [|c a IH]; simpl; auto.
  intros H; apply andb_true_iff in H as [Hc Ha].
  rewrite Hc, IH; auto.
Qed.

Lemma lstrip_app_space (w t : str) :
  forallb is_space w = true -> lstrip (w ++ t) = lstrip t.
Proof. apply drop_while_app. Qed.

Lemma strip_app_space (w t : str) :
  forallb is_space w = true -> strip (w ++ t) = strip t.
Proof. intros H. unfold strip. rewrite lstrip_app_space; auto. Qed.

End StringFacts.

(** ** Facts about the matcher *)

Section RegexFacts.

Lemma advance_0 (s : mstate) : advance 0 s = s.
Proof. destruct s; reflexivity. Qed.

Lemma advance_S (k : nat) (c : ascii) (t sn : str) (g : list (nat * str)) :
  advance (S k) (MState sn (c :: t) g) = advance k (MState (c :: sn) t g).
Proof.
  unfold advance; simpl. rewrite <- app_assoc. reflexivity.
Qed.

Lemma rest_advance (k : nat) (s : mstate) : rest (advance k s) = skipn k (rest s).
Proof. reflexivity. Qed.

Lemma groups_advance (k : nat) (s : mstate) : groups (advance k s) = groups s.
Proof. reflexivity. Qed.

(** A greedy repetition of a character class stops after any number of
    characters of the class that the bounds allow. *)
Lemma rep_chr_in (p : ascii -> bool) (fuel : nat) :
  forall lo hi s s',
    length (rest s) <= fuel ->
    (In s' (rep (run (Chr p)) fuel lo hi s) <->
     exists k, lo <= k /\ within k hi /\ k <= length (rest s) /\
               forallb p (firstn k (rest s)) = true /\ s' = advance k s).
Proof.
  induction fuel as [|f IH]; intros lo hi s s' Hlen.
  - destruct s as [sn r g]; simpl in *.
    assert (r = []) by (destruct r; simpl in *; [auto | lia]); subst r.
    destruct lo; simpl; split.
    + intros [<- | []]. exists 0. repeat split; auto; try lia.
      destruct hi; simpl; lia.
    + intros [k (_ & _ & Hk & _ & ->)]. left.
      assert (k = 0) by lia; subst; reflexivity.
    + intros [].
    + intros [k (Hlo & _ & Hk & _)]; simpl in Hk; lia.
  - cbn [rep]. rewrite in_app_iff. split.
    + intros [Hin | Hstop].
      * destruct hi as [[|h]|]; [destruct Hin | |];
          destruct s as [sn [|c t] g]; simpl in Hin; try (destruct Hin; fail);
          destruct (p c) eqn:Pc; simpl in Hin; try (destruct Hin; fail);
          rewrite app_nil_r in Hin;
          (destruct (length t <? S (length t)) eqn:Lt;
           [|apply Nat.ltb_ge in Lt; lia]);
          apply IH in Hin; [|simpl in *; lia| |simpl in *; lia];
          destruct Hin as [k (Hlo & Hhi & Hk & Hp & ->)];
          exists (S k); simpl in *; rewrite Pc, Hp;
          repeat split; auto; try lia; try (rewrite advance_S; reflexivity).
      * destruct lo; [|destruct Hstop].
        destruct Hstop as [<- | []]. exists 0.
        rewrite advance_0. repeat split; auto; try lia.
        destruct hi; simpl; lia.
    + intros [k (Hlo & Hhi & Hk & Hp & ->)].
      destruct k as [|k].
      * right. assert (lo = 0) by lia; subst. left. symmetry; apply advance_0.
      * left. destruct s as [sn [|c t] g]; simpl in Hk; [lia|].
        simpl in Hp. apply andb_true_iff in Hp as [Pc Hp].
        assert (Hgo : In (advance (S k) (MState sn (c :: t) g))
                        (rep (run (Chr p)) f (pred lo) (option_map pred hi)
                           (MState (c :: sn) t g))).
        { apply IH; [simpl in *; lia|]. exists k. simpl.
          repeat split; auto; try lia.
          - destruct hi as [h|]; simpl in *; lia.
          - apply advance_S. }
        destruct hi as [[|h]|]; [simpl in Hhi; lia| |];
          simpl; rewrite Pc; simpl; rewrite app_nil_r;
          (destruct (length t <? S (length t)) eqn:Lt;
           [|apply Nat.ltb_ge in Lt; lia]); exact Hgo.
Qed.

Lemma re_match_in (r : regex) (l : str) (m : mstate) :
  re_match r l = Some m -> In m (run r (start l)).
Proof.
  unfold re_match. destruct (run r (start l)); simpl; [discriminate|].
  intros [= ->]; auto.
Qed.

Lemma re_match_none (r : regex) (l : str) :
  re_match r l = None <-> forall m, ~ In m (run r (start l)).
Proof.
  unfold re_match. destruct (run r (start l)) as [|m ms]; simpl; split;
    auto; try discriminate.
  intros H; exfalso; apply (H m); auto.
Qed.

Lemma re_match_some (r : regex) (l : str) (m : mstate) :
  In m (run r (start l)) -> exists m', re_match r l = Some m'.
Proof.
  unfold re_match. destruct (run r (start l)); simpl; [intros []|eauto].
Qed.

Lemma run_cat (r1 r2 : regex) (s s' : mstate) :
  In s' (run (Cat r1 r2) s) <->
  exists s1, In s1 (run r1 s) /\ In s' (run r2 s1).
Proof. simpl. apply in_flat_map. Qed.

Lemma run_grp (i : nat) (r : regex) (s s' : mstate) :
  In s' (run (Grp i r) s) <->
  exists s1, In s1 (run r s) /\ s' = close_group i s s1.
Proof.
  simpl. rewrite in_map_iff. split; intros [s1 [H1 H2]]; eauto.
Qed.

Lemma run_bol (s s' : mstate) :
  In s' (run Bol s) <-> seen s = [] /\ s' = s.
Proof.
  simpl. destruct (seen s); simpl; split.
  - intros [<- | []]; auto.
  - intros [_ ->]; auto.
  - intros [].
  - intros [? _]; discriminate.
Qed.

Lemma run_eol (s s' : mstate) :
  In s' (run Eol s) <-> (rest s = [] \/ rest s = [nl]) /\ s' = s.
Proof.
  simpl. destruct (rest s) as [|c [|c' t]]; simpl.
  - split; [intros [<- | []]; auto | intros [_ ->]; auto].
  - destruct (eqc c nl) eqn:E; simpl.
    + apply eqc_eq in E; subst.
      split; [intros [<- | []]; auto | intros [_ ->]; auto].
    + split; [intros [] | intros [[H | H] _]; [discriminate|]].
      injection H as ->. rewrite eqc_refl in E; discriminate.
  - split; [intros [] | intros [[H | H] _]; discriminate].
Qed.

Lemma run_rep_chr (p : ascii -> bool) (lo : nat) (hi : option nat)
    (s s' : mstate) :
  In s' (run (Rep (Chr p) lo hi) s) <->
  exists a b, rest s = a ++ b /\ lo <= length a /\ within (length a) hi /\
              forallb p a = true /\
              s' = MState (rev a ++ seen s) b (groups s).
Proof.
  change (run (Rep (Chr p) lo hi) s)
    with (rep (run (Chr p)) (length (rest s)) lo hi s).
  rewrite rep_chr_in by lia. split.
  - intros [k (Hlo & Hhi & Hk & Hp & ->)].
    exists (firstn k (rest s)), (skipn k (rest s)).
    rewrite firstn_skipn, length_firstn, Nat.min_l by lia.
    repeat split; auto.
  - intros [a [b (E & Hlo & Hhi & Hp & ->)]].
    exists (length a). unfold advance. rewrite E, length_app.
    rewrite firstn_app, Nat.sub_diag, firstn_all, app_nil_r.
    rewrite skipn_app, Nat.sub_diag, skipn_all. simpl.
    repeat split; auto; lia.
Qed.

Lemma close_group_app (i : nat) (sn sn' a b : str) (g g' : list (nat * str)) :
  close_group i (MState sn (a ++ b) g) (MState sn' b g')
  = MState sn' b ((i, a) :: g').
Proof.
  unfold close_group, consumed; simpl. rewrite length_app.
  replace (length a + length b - length b) with (length a) by lia.
  rewrite firstn_app, Nat.sub_diag, firstn_all, app_nil_r. reflexivity.
Qed.

Lemma forallb_chr_is (c : ascii) (a : str) :
  forallb (chr_is c) a = true -> a = repeat c (length a).
Proof.
  induction a as [|x a IH]; simpl; auto.
  intros H; apply andb_true_iff in H as [Hx Ha].
  apply eqc_eq in Hx; subst. rewrite <- IH; auto.
Qed.

Lemma forallb_repeat (c : ascii) (n : nat) :
  forallb (chr_is c) (repeat c n) = true.
Proof.
  induction n; simpl; auto. unfold chr_is at 1. rewrite eqc_refl; auto.
Qed.

Lemma free_of_app (d : ascii) (a b : str) :
  free_of d (a ++ b) <-> free_of d a /\ free_of d b.
Proof. unfold free_of. rewrite forallb_app, andb_true_iff. tauto. Qed.

End RegexFacts.

(** ** Facts about headings *)

Section HeadingFacts.

Lemma heading_sound (l : str) (m : mstate) :
  free_of nl l ->
  In m (run heading_re (start l)) ->
  exists h w t, heading_shape l h w t /\
                group 1 m = repeat hash h /\ group 2 m = t.
Proof.
  intros Fl Hin. unfold heading_re, plus_of in Hin.
  apply run_cat in Hin as [s1 [H1 Hin]].
  apply run_bol in H1 as [_ ->].
  apply run_cat in Hin as [s2 [H2 Hin]].
  apply run_grp in H2 as [s2' [H2 ->]].
  apply run_rep_chr in H2 as [a [b (E1 & Ha1 & Ha6 & Pa & ->)]].
  simpl in E1; subst l. unfold start in *.
  rewrite close_group_app in Hin.
  apply run_cat in Hin as [s3 [H3 Hin]].
  apply run_rep_chr in H3 as [w [b' (E2 & Hw & _ & Pw & ->)]].
  simpl in E2; subst b.
  apply run_cat in Hin as [s4 [H4 Hin]].
  apply run_grp in H4 as [s4' [H4 ->]].
  apply run_rep_chr in H4 as [t [e (E3 & Ht & _ & Pt & ->)]].
  simpl in E3; subst b'. cbn [seen rest groups] in Hin.
  rewrite close_group_app in Hin.
  apply run_eol in Hin as [He ->]. simpl in He.
  assert (e = []) as ->.
  { destruct He as [-> | ->]; auto.
    apply free_of_app in Fl as [_ Fl]. apply free_of_app in Fl as [_ Fl].
    apply free_of_app in Fl as [_ Fl].
    vm_compute in Fl. discriminate. }
  rewrite app_nil_r.
  exists (length a), w, t. simpl in Ha6. unfold heading_shape.
  rewrite <- (forallb_chr_is _ _ Pa).
  repeat split; auto; try lia.
  - destruct w; simpl in *; [lia | discriminate].
  - destruct t; simpl in *; [lia | discriminate].
Qed.

Lemma heading_complete (l : str) (h : nat) (w t : str) :
  free_of nl l -> heading_shape l h w t ->
  exists m, In m (run heading_re (start l)).
Proof.
  intros Fl (-> & Hh & Hw & Pw & Ht).
  eexists. unfold heading_re, plus_of.
  apply run_cat. eexists; split; [apply run_bol; split; reflexivity|].
  apply run_cat. eexists; split.
  { apply run_grp. eexists; split; [|reflexivity].
    apply run_rep_chr. exists (repeat hash h), (w ++ t).
    rewrite repeat_length. simpl.
    repeat split; auto; try lia. apply forallb_repeat. }
  unfold start. rewrite close_group_app.
  apply run_cat. eexists; split.
  { apply run_rep_chr. exists w, t. simpl. repeat split; auto.
    destruct w; simpl; [congruence | lia]. }
  apply run_cat. eexists; split.
  { apply run_grp. eexists; split; [|reflexivity].
    apply run_rep_chr. exists t, []. simpl. rewrite app_nil_r.
    repeat split; auto.
    - destruct t; simpl; [congruence | lia].
    - apply free_of_app in Fl as [_ Fl]. apply free_of_app in Fl as [_ Fl].
      exact Fl. }
  apply run_eol. simpl. split; [|reflexivity].
  left. unfold consumed; simpl. reflexivity.
Qed.

Lemma space_not_hash (c : ascii) : is_space c = true -> chr_is hash c = false.
Proof.
  intros H. destruct (chr_is hash c) eqn:E; auto.
  apply eqc_eq in E; subst. discriminate.
Qed.

Lemma shape_hashes (l : str) (h : nat) (w t : str) :
  heading_shape l h w t ->
  hashes l = h /\ after_hashes l = w ++ t.
Proof.
  intros (-> & _ & Hw & Pw & _). unfold hashes, after_hashes.
  destruct w as [|c w]; [congruence|]. simpl in Pw.
  apply andb_true_iff in Pw as [Pc _]. apply space_not_hash in Pc.
  rewrite take_while_app, drop_while_app by apply forallb_repeat.
  simpl. rewrite Pc, app_nil_r, repeat_length. auto.
Qed.

Lemma shape_text (l : str) (h : nat) (w t : str) :
  heading_shape l h w t -> strip t = strip (after_hashes l).
Proof.
  intros H. destruct (shape_hashes _ _ _ _ H) as [_ ->].
  destruct H as (_ & _ & _ & Pw & _). rewrite strip_app_space; auto.
Qed.

(** What a successful match of the heading pattern records. *)
Lemma heading_match_some (l : str) (m : mstate) :
  free_of nl l -> re_match heading_re l = Some m ->
  exists w, heading_shape l (hashes l) w (group 2 m) /\
            length (group 1 m) = hashes l /\
            strip (group 2 m) = strip (after_hashes l).
Proof.
  intros Fl Hm. apply re_match_in in Hm.
  destruct (heading_sound l m Fl Hm) as [h [w [t (Hs & G1 & G2)]]].
  destruct (shape_hashes _ _ _ _ Hs) as [Hh _]. subst h t.
  exists w. rewrite G1, repeat_length.
  split; [exact Hs|]. split; [reflexivity|].
  eapply shape_text; eauto.
Qed.

Lemma heading_match_none (l : str) :
  free_of nl l -> re_match heading_re l = None ->
  forall h w t, ~ heading_shape l h w t.
Proof.
  intros Fl Hn h w t Hs. destruct (heading_complete _ _ _ _ Fl Hs) as [m Hm].
  apply (proj1 (re_match_none _ _) Hn m Hm).
Qed.

Lemma heading_match_shape (l : str) (h : nat) (w t : str) :
  free_of nl l -> heading_shape l h w t ->
  exists m, re_match heading_re l = Some m.
Proof.
  intros Fl Hs. destruct (heading_complete _ _ _ _ Fl Hs) as [m Hm].
  eapply re_match_some; eauto.
Qed.

End HeadingFacts.

(** ** Hierarchy normalization as one pass over the lines *)

Section NormalizeFacts.

Lemma dict_set_fresh (d : list (nat * nat)) (k v : nat) :
  Forall (fun kv => fst kv <> k) d -> dict_set d k v = d ++ [(k, v)].
Proof.
  induction d as [|[k' v'] d IH]; simpl; intros F; auto.
  inversion F as [|? ? Hk Hd]; subst. simpl in Hk.
  destruct (k' =? k) eqn:E; [apply Nat.eqb_eq in E; congruence|].
  rewrite IH; auto.
Qed.

Lemma adjust_plan (ls : list str) :
  forall i e adj,
    Forall (fun kv => fst kv < i) adj ->
    adjust (extract_from i ls) e adj = adj ++ plan e (extract_from i ls).
Proof.
  induction ls as [|l ls IH]; intros i e adj F; simpl.
  - rewrite app_nil_r; reflexivity.
  - destruct (re_match heading_re l) as [m|]; simpl.
    + assert (Hset : forall v, dict_set adj i v = adj ++ [(i, v)]).
      { intros v. apply dict_set_fresh.
        eapply Forall_impl; [|exact F]. simpl; intros; lia. }
      assert (Hnext : forall v,
                 Forall (fun kv => fst kv < S i) (adj ++ [(i, v)])).
      { intros v. apply Forall_app; split.
        - eapply Forall_impl; [|exact F]. simpl; intros; lia.
        - repeat constructor. }
      unfold clamp.
      destruct (e + 1 <? length (group 1 m)); rewrite Hset, IH by auto;
        rewrite <- app_assoc; reflexivity.
    + apply IH. eapply Forall_impl; [|exact F]. simpl; intros; lia.
Qed.

Lemma list_set_app (pre suf : list str) (l v : str) :
  list_set (pre ++ l :: suf) (length pre) v = pre ++ v :: suf.
Proof. induction pre; simpl; congruence. Qed.

Lemma nth_error_mid (pre suf : list str) (l : str) :
  nth_error (pre ++ l :: suf) (length pre) = Some l.
Proof. induction pre; simpl; auto. Qed.

Lemma apply_plan (suf : list str) :
  forall pre e,
    apply_adjustments (plan e (extract_from (length pre) suf)) (pre ++ suf)
    = Some (pre ++ normalize_lines e suf).
Proof.
  induction suf as [|l suf IH]; intros pre e; simpl; auto.
  destruct (re_match heading_re l) as [m|] eqn:Hm; simpl.
  - rewrite nth_error_mid, Hm, list_set_app.
    set (v := repeat hash _ ++ _).
    specialize (IH (pre ++ [v]) (clamp e (length (group 1 m)))).
    rewrite length_app, Nat.add_1_r, <- !app_assoc in IH. exact IH.
  - specialize (IH (pre ++ [l]) e).
    rewrite length_app, Nat.add_1_r, <- !app_assoc in IH. exact IH.
Qed.

Lemma normalize_lines_no_heading (ls : list str) :
  forall i e, extract_from i ls = [] -> normalize_lines e ls = ls.
Proof.
  induction ls as [|l ls IH]; intros i e; simpl; auto.
  destruct (re_match heading_re l); [discriminate|].
  intros H. rewrite (IH _ _ H). reflexivity.
Qed.

(** The method returns, and its result is the one-pass rewriting. *)
Lemma normalize_spec (content src : str) :
  normalize_heading_hierarchy (init content src)
  = Some (join_nl (normalize_lines 1 (split_nl content))).
Proof.
  unfold normalize_heading_hierarchy, extract_headings, init; simpl.
  destruct (extract_from 0 (split_nl content)) as [|h hs] eqn:E.
  - rewrite (normalize_lines_no_heading _ 0 1 E), join_nl_split_nl.
    reflexivity.
  - assert (A := adjust_plan (split_nl content) 0 1 [] (Forall_nil _)).
    assert (H := apply_plan (split_nl content) [] 1).
    cbn [app length] in A, H. rewrite E in A, H.
    rewrite A, H. reflexivity.
Qed.

Lemma normalize_lines_length (ls : list str) :
  forall e, length (normalize_lines e ls) = length ls.
Proof.
  induction ls as [|l ls IH]; intros e; simpl; auto.
  destruct (re_match heading_re l); simpl; rewrite IH; reflexivity.
Qed.

Lemma clamp_bounds (e r : nat) :
  1 <= r -> 1 <= clamp e r /\ clamp e r <= r /\ clamp e r <= e + 1.
Proof.
  intros H. unfold clamp. destruct (e + 1 <? r) eqn:E.
  - apply Nat.ltb_lt in E. lia.
  - apply Nat.ltb_ge in E. lia.
Qed.

(** A rewritten heading line is a heading line of the new level with
    the same trimmed text. *)
Lemma rewritten_heading (l : str) (m : mstate) (n : nat) :
  free_of nl l -> re_match heading_re l = Some m -> 1 <= n <= 6 ->
  let l' := repeat hash n ++ [space] ++ group 2 m in
  free_of nl l' /\
  exists m', re_match heading_re l' = Some m' /\
             length (group 1 m') = n /\
             strip (group 2 m') = strip (group 2 m).
Proof.
  intros Fl Hm Hn l'.
  destruct (heading_match_some l m Fl Hm) as [w (Hs & _ & _)].
  assert (Hs' : heading_shape l' n [space] (group 2 m)).
  { destruct Hs as (_ & _ & _ & _ & Ht).
    unfold heading_shape. repeat split; auto; try lia. discriminate. }
  assert (Fl' : free_of nl l').
  { destruct Hs as (E & _). rewrite E in Fl.
    apply free_of_app in Fl as [_ Fl]. apply free_of_app in Fl as [_ Fl].
    unfold l'. apply free_of_app; split.
    - unfold free_of. rewrite forallb_forall. intros c Hc.
      apply repeat_spec in Hc; subst. reflexivity.
    - apply free_of_app; split; [reflexivity | assumption]. }
  split; auto.
  destruct (heading_match_shape _ _ _ _ Fl' Hs') as [m' Hm'].
  exists m'. split; auto.
  destruct (heading_match_some l' m' Fl' Hm') as [w' (_ & G1 & G2)].
  destruct (shape_hashes _ _ _ _ Hs') as [Hh Ha].
  rewrite G1, G2, Hh, Ha. split; [reflexivity|].
  apply (strip_app_space [space]). reflexivity.
Qed.

Lemma heading_level_bounds (l : str) (m : mstate) :
  free_of nl l -> re_match heading_re l = Some m ->
  1 <= length (group 1 m) <= 6.
Proof.
  intros Fl Hm.
  destruct (heading_match_some l m Fl Hm) as [w (Hs & G1 & _)].
  rewrite G1. destruct Hs as (_ & H & _). exact H.
Qed.

Lemma normalize_lines_free (ls : list str) :
  forall e, Forall (free_of nl) ls ->
            Forall (free_of nl) (normalize_lines e ls).
Proof.
  induction ls as [|l ls IH]; intros e F; simpl; auto.
  inversion F as [|? ? Fl Fls]; subst.
  destruct (re_match heading_re l) as [m|] eqn:Hm; constructor; auto.
  assert (B := heading_level_bounds l m Fl Hm).
  apply (rewritten_heading l m _ Fl Hm).
  destruct (clamp_bounds e (length (group 1 m))); lia.
Qed.

(** The headings of the rewritten lines are the old ones, re-levelled. *)
Lemma extract_normalize_lines (ls : list str) :
  forall i e,
    Forall (free_of nl) ls ->
    extract_from i (normalize_lines e ls) = relevel e (extract_from i ls).
Proof.
  induction ls as [|l ls IH]; intros i e F; simpl; auto.
  inversion F as [|? ? Fl Fls]; subst.
  destruct (re_match heading_re l) as [m|] eqn:Hm; simpl.
  - assert (B := heading_level_bounds l m Fl Hm).
    assert (Hn : 1 <= clamp e (length (group 1 m)) <= 6)
      by (destruct (clamp_bounds e (length (group 1 m))); lia).
    destruct (rewritten_heading l m _ Fl Hm Hn) as [_ [m' (Hm' & G1 & G2)]].
    change ([space] ++ group 2 m) with (space :: group 2 m) in Hm'.
    rewrite Hm', G1, G2, IH by auto. reflexivity.
  - rewrite Hm. apply IH; auto.
Qed.

Lemma extract_levels (ls : list str) :
  forall i, Forall (free_of nl) ls ->
            Forall (fun h => 1 <= level h <= 6) (extract_from i ls).
Proof.
  induction ls as [|l ls IH]; intros i F; simpl; auto.
  inversion F as [|? ? Fl Fls]; subst.
  destruct (re_match heading_re l) as [m|] eqn:Hm; auto.
  constructor; auto. simpl. eapply heading_level_bounds; eauto.
Qed.

(** The headings of the normalized text. *)
Lemma headings_of_normalized (content src : str) :
  extract_headings
    (init (join_nl (normalize_lines 1 (split_nl content))) src)
  = relevel 1 (extract_headings (init content src)).
Proof.
  unfold extract_headings, init; simpl.
  rewrite split_nl_join_nl.
  - apply extract_normalize_lines, split_nl_free.
  - intros E. apply (f_equal (@length str)) in E.
    rewrite normalize_lines_length in E.
    destruct (split_nl content) eqn:S; [|discriminate].
    exact (split_nl_nonempty content S).
  - apply normalize_lines_free, split_nl_free.
Qed.

End NormalizeFacts.

(** ** Headings: extraction and normalization *)

Section HeadingClaims.

Lemma extract_from_in (ls : list str) :
  forall i0 hd,
    In hd (extract_from i0 ls) <->
    exists j l m, nth_error ls j = Some l /\
                  re_match heading_re l = Some m /\
                  hd = Heading (length (group 1 m)) (strip (group 2 m))
                         (i0 + j).
Proof.
  induction ls as [|l ls IH]; intros i0 hd; simpl.
  - split; [intros [] | intros [[|j] [l [m (H & _)]]]; discriminate].
  - assert (Hrec : In hd (extract_from (S i0) ls) <->
                   exists j l' m, nth_error (l :: ls) (S j) = Some l' /\
                                  re_match heading_re l' = Some m /\
                                  hd = Heading (length (group 1 m))
                                         (strip (group 2 m)) (i0 + S j)).
    { rewrite IH. split; intros [j [l' [m (H1 & H2 & H3)]]];
        exists j, l', m; repeat split; auto; rewrite H3; f_equal; lia. }
    destruct (re_match heading_re l) as [m|] eqn:Hm; simpl; split.
    + intros [<- | H].
      * exists 0, l, m. rewrite Nat.add_0_r. auto.
      * apply Hrec in H as [j [l' [m' H]]]. exists (S j), l', m'. exact H.
    + intros [[|j] [l' [m' (H1 & H2 & H3)]]].
      * simpl in H1. injection H1 as <-. rewrite Hm in H2.
        injection H2 as <-. left. rewrite H3, Nat.add_0_r. reflexivity.
      * right. apply Hrec. exists j, l', m'. auto.
    + intros H. apply Hrec in H as [j [l' [m' H]]].
      exists (S j), l', m'. exact H.
    + intros [[|j] [l' [m' (H1 & H2 & H3)]]].
      * simpl in H1. injection H1 as <-. congruence.
      * apply Hrec. exists j, l', m'. auto.
Qed.

Lemma nth_error_free (content : str) (i : nat) (l : str) :
  nth_error (split_nl content) i = Some l -> free_of nl l.
Proof.
  intros H. apply nth_error_In in H.
  exact (proj1 (Forall_forall _ _) (split_nl_free content) l H).
Qed.

Lemma clamp_step (e r : nat) : clamp e r <= e + 1.
Proof.
  unfold clamp. destruct (e + 1 <? r) eqn:E; auto.
  apply Nat.ltb_ge in E. exact E.
Qed.

Lemma relevel_no_jump (hs : list heading) :
  forall e, no_jump (map level (relevel e hs)).
Proof.
  induction hs as [|h hs IH]; intros e i a b; simpl.
  - destruct i; discriminate.
  - destruct i as [|i]; simpl.
    + intros [= <-]. destruct hs as [|h' hs]; simpl; [discriminate|].
      intros [= <-]. apply clamp_step.
    + apply IH.
Qed.

Lemma relevel_bounds (hs : list heading) :
  forall e,
    Forall (fun h => 1 <= level h <= 6) hs ->
    Forall2 (fun h h' => line h' = line h /\ text h' = text h /\
                         1 <= level h' <= level h)
            hs (relevel e hs).
Proof.
  induction hs as [|h hs IH]; intros e F; simpl; constructor.
  - inversion F as [|? ? Hh _]; subst. simpl.
    destruct (clamp_bounds e (level h)); [lia|]. repeat split; lia.
  - inversion F; subst. apply IH; auto.
Qed.

Lemma relevel_texts (hs : list heading) :
  forall e, map text (relevel e hs) = map text hs.
Proof.
  induction hs as [|h hs IH]; intros e; simpl; auto. rewrite IH; auto.
Qed.

Lemma normalize_lines_nth (ls : list str) :
  forall e i l,
    Forall (free_of nl) ls -> nth_error ls i = Some l ->
    match re_match heading_re l with
    | None => nth_error (normalize_lines e ls) i = Some l
    | Some m =>
        exists n, 1 <= n <= length (group 1 m) /\
                  nth_error (normalize_lines e ls) i
                  = Some (repeat hash n ++ [space] ++ group 2 m)
    end.
Proof.
  induction ls as [|l0 ls IH]; intros e i l F H.
  - destruct i; discriminate.
  - inversion F as [|? ? F0 Fs]; subst. destruct i as [|i]; simpl in H.
    + injection H as ->. simpl.
      destruct (re_match heading_re l) as [m|] eqn:Hm; simpl; auto.
      exists (clamp e (length (group 1 m))). split; auto.
      assert (B := heading_level_bounds l m F0 Hm).
      destruct (clamp_bounds e (length (group 1 m))); lia.
    + simpl. destruct (re_match heading_re l0); simpl; apply IH; auto.
Qed.

End HeadingClaims.

(** ** Claims about headings *)

(** C1: the hierarchy normalization returns, and in the text it
    produces every heading is at most one level deeper than the heading
    before it. *)
Theorem normalize_no_level_jump (content src : str) :
  exists out,
    normalize_heading_hierarchy (init content src) = Some out /\
    no_jump (map level (extract_headings (init out src))).
Proof.
  eexists. split; [apply normalize_spec|].
  rewrite headings_of_normalized. apply relevel_no_jump.
Qed.

(** C10: the hierarchy normalization never deepens a heading: the
    headings of its result are the headings of the input, on the same
    lines and with the same texts, each at a level between 1 and its
    raw level. *)
Theorem normalize_never_deepens (content src : str) :
  exists out,
    normalize_heading_hierarchy (init content src) = Some out /\
    Forall2 (fun h h' => line h' = line h /\ text h' = text h /\
                         1 <= level h' <= level h)
            (extract_headings (init content src))
            (extract_headings (init out src)).
Proof.
  eexists. split; [apply normalize_spec|].
  rewrite headings_of_normalized. apply relevel_bounds.
  apply extract_levels, split_nl_free.
Qed.

(** C9, counterexample: a tab after the [#] makes a heading as well. *)
Lemma tab_heading_recorded :
  ~ headings_iff_blank_shape (hash :: "009"%char :: lit "Title") [].
Proof.
  intros H. specialize (H 0 _ eq_refl). destruct H as [H _].
  assert (R : records_heading (hash :: "009"%char :: lit "Title") [] 0).
  { eexists. split; [left; reflexivity | reflexivity]. }
  destruct (H R) as [h [k [t (E & Hh & Hk & _)]]].
  destruct h as [|[|h]]; [lia | |]; destruct k; try lia;
    simpl in E; discriminate.
Qed.

(** C9, amended: a line is recorded as a heading if and only if it
    consists of 1 to 6 [#], then one or more whitespace characters,
    then non-empty text; the recorded level is the number of [#], the
    recorded text is the trimmed text, the recorded line is the index
    of the line; a document without such a line has no headings. *)
Theorem extract_headings_spec (content src : str) :
  (forall i l,
      nth_error (split_nl content) i = Some l ->
      (records_heading content src i <->
       exists h w t, heading_shape l h w t) /\
      (forall hd,
          In hd (extract_headings (init content src)) -> line hd = i ->
          exists w t, heading_shape l (level hd) w t /\
                      text hd = strip t)) /\
  ((forall l, In l (split_nl content) ->
              forall h w t, ~ heading_shape l h w t) ->
   extract_headings (init content src) = []).
Proof.
  unfold records_heading, extract_headings, init; simpl.
  assert (Hin : forall hd i l,
             nth_error (split_nl content) i = Some l ->
             In hd (extract_from 0 (split_nl content)) -> line hd = i ->
             exists m, re_match heading_re l = Some m /\
                       hd = Heading (length (group 1 m))
                              (strip (group 2 m)) i).
  { intros hd i l Hl H Hi.
    apply extract_from_in in H as [j [l' [m (H1 & H2 & ->)]]].
    simpl in Hi. subst j. rewrite Hl in H1. injection H1 as <-.
    exists m. auto. }
  split.
  - intros i l Hl. assert (Fl := nth_error_free content i l Hl).
    split; [split|].
    + intros [hd [H Hi]].
      destruct (Hin hd i l Hl H Hi) as [m [Hm _]].
      destruct (heading_match_some l m Fl Hm) as [w (Hs & _)]. eauto.
    + intros [h [w [t Hs]]].
      destruct (heading_match_shape l h w t Fl Hs) as [m Hm].
      exists (Heading (length (group 1 m)) (strip (group 2 m)) i).
      split; [|reflexivity].
      apply extract_from_in. exists i, l, m. auto.
    + intros hd H Hi.
      destruct (Hin hd i l Hl H Hi) as [m [Hm ->]].
      destruct (heading_match_some l m Fl Hm) as [w (Hs & G1 & _)].
      simpl. rewrite G1. eauto.
  - intros Hno.
    destruct (extract_from 0 (split_nl content)) as [|hd hs] eqn:E; auto.
    exfalso.
    assert (H : In hd (extract_from 0 (split_nl content)))
      by (rewrite E; left; reflexivity).
    apply extract_from_in in H as [j [l [m (H1 & H2 & _)]]].
    assert (Fl := nth_error_free content j l H1).
    destruct (heading_match_some l m Fl H2) as [w (Hs & _)].
    exact (Hno l (nth_error_In _ _ H1) _ _ _ Hs).
Qed.

(** ** The diagram classifier *)

Section ClassifierFacts.

Lemma startswith_spec (p s : str) :
  startswith p s = true <-> exists b, s = p ++ b.
Proof.
  revert s; induction p as [|x p IH]; intros s; simpl.
  - split; eauto.
  - destruct s as [|y s].
    + split; [discriminate | intros [b H]; discriminate].
    + rewrite andb_true_iff, eqc_eq, IH. split.
      * intros [-> [b ->]]. eauto.
      * intros [b [= -> ->]]. eauto.
Qed.

Lemma contains_spec (ind s : str) : contains ind s = true <-> occurs ind s.
Proof.
  unfold occurs. induction s as [|c s IH]; simpl.
  - rewrite orb_false_r, startswith_spec. split.
    + intros [b H]. exists [], b. exact H.
    + intros [[|x a] [b H]]; [eauto|discriminate].
  - rewrite orb_true_iff, startswith_spec, IH. split.
    + intros [[b H] | [a [b H]]].
      * exists [], b. exact H.
      * exists (c :: a), b. rewrite H. reflexivity.
    + intros [[|x a] [b H]].
      * left. exists b. exact H.
      * right. injection H as -> ->. eauto.
Qed.

Lemma any_in_spec (indicators : list str) (s : str) :
  any_in indicators s = true <-> mentions indicators s.
Proof.
  unfold any_in, mentions. rewrite existsb_exists.
  split; intros [ind [H1 H2]]; exists ind; split; auto;
    apply contains_spec; auto.
Qed.

Lemma any_in_false (indicators : list str) (s : str) :
  any_in indicators s = false <-> ~ mentions indicators s.
Proof.
  rewrite <- any_in_spec. destruct (any_in indicators s); split;
    congruence.
Qed.

Lemma extract_from_lines (ls : list str) :
  forall i,
    Forall (fun h => i <= line h) (extract_from i ls) /\
    NoDup (map line (extract_from i ls)).
Proof.
  induction ls as [|l ls IH]; intros i; simpl.
  - split; constructor.
  - destruct (IH (S i)) as [Hge Hnd].
    assert (Hge' : Forall (fun h => i <= line h) (extract_from (S i) ls))
      by (eapply Forall_impl; [|exact Hge]; simpl; intros; lia).
    destruct (re_match heading_re l); [|auto].
    split; [constructor; auto|]. simpl. constructor; auto.
    rewrite in_map_iff. intros [h [Eh Hin]].
    apply (proj1 (Forall_forall _ _) Hge) in Hin. lia.
Qed.

Lemma nodup_map_inj (hs : list heading) (h h' : heading) :
  NoDup (map line hs) -> In h hs -> In h' hs -> line h = line h' -> h = h'.
Proof.
  induction hs as [|x hs IH]; simpl; intros N H H' E; [tauto|].
  inversion N as [|? ? Hx Hn]; subst.
  destruct H as [-> | H], H' as [-> | H']; auto.
  - exfalso. apply Hx. rewrite E. apply in_map; auto.
  - exfalso. apply Hx. rewrite <- E. apply in_map; auto.
Qed.

Lemma opportunities_in (self : optimizer) (o : opportunity) :
  In o (identify_diagram_opportunities self) <->
  exists h, In h (extract_headings self) /\
            classify (section_text_of self (extract_headings self) h)
            = Some (opp_type o) /\
            o = Opportunity (text h) (opp_type o) (line h).
Proof.
  unfold identify_diagram_opportunities. rewrite in_flat_map.
  split; intros [h [Hh H]]; exists h; split; auto.
  - destruct (classify _) as [t|]; [|destruct H].
    destruct H as [<- | []]. auto.
  - destruct H as [Hc ->]. simpl in Hc. rewrite Hc. left. reflexivity.
Qed.

Lemma flat_map_nodup_lines (self : optimizer) (hs0 hs : list heading) :
  NoDup (map line hs) ->
  NoDup (map opp_line
           (flat_map
              (fun h =>
                 match classify (section_text_of self hs0 h) with
                 | Some t => [Opportunity (text h) t (line h)]
                 | None => []
                 end) hs)).
Proof.
  induction hs as [|h hs IH]; simpl; intros N; [constructor|].
  inversion N as [|? ? Hx Hn]; subst.
  destruct (classify _); simpl; auto.
  constructor; auto.
  rewrite in_map_iff. intros [o [Eo Ho]]. apply Hx.
  apply in_flat_map in Ho as [h' [Hh' Ho]].
  destruct (classify _); [|destruct Ho]. destruct Ho as [<- | []].
  simpl in Eo. rewrite <- Eo. apply in_map; auto.
Qed.

End ClassifierFacts.

(** C6: every heading section gets at most one diagram type; it is
    [flowchart] when the lower-cased section text contains a process
    indicator, else [graph] when it contains a relationship indicator,
    else [architecture] when it contains an architecture indicator, and
    a section that contains no indicator gets no suggestion. *)
Theorem classifier_priority (self : optimizer) :
  NoDup (map opp_line (identify_diagram_opportunities self)) /\
  forall h,
    In h (extract_headings self) ->
    let s := section_text_of self (extract_headings self) h in
    (forall t t', suggests self h t -> suggests self h t' -> t = t') /\
    (mentions process_indicators s -> suggests self h Flowchart) /\
    (~ mentions process_indicators s ->
     mentions relationship_indicators s -> suggests self h Graph) /\
    (~ mentions process_indicators s ->
     ~ mentions relationship_indicators s ->
     mentions architecture_indicators s -> suggests self h Architecture) /\
    (~ mentions process_indicators s ->
     ~ mentions relationship_indicators s ->
     ~ mentions architecture_indicators s ->
     forall o, In o (identify_diagram_opportunities self) ->
               opp_line o <> line h).
Proof.
  assert (N : NoDup (map line (extract_headings self)))
    by apply extract_from_lines.
  split.
  { apply flat_map_nodup_lines. exact N. }
  intros h Hh s.
  assert (Hsug : forall t, suggests self h t <-> classify s = Some t).
  { intros t. unfold suggests. rewrite opportunities_in. simpl. split.
    - intros [h' (Hh' & Hc & E)]. injection E as Et El.
      assert (h' = h) as -> by (apply (nodup_map_inj _ _ _ N); auto).
      exact Hc.
    - intros Hc. exists h. auto. }
  repeat split.
  - intros t t' H H'. apply Hsug in H, H'. congruence.
  - intros Hp. apply Hsug. unfold classify.
    apply any_in_spec in Hp. rewrite Hp. reflexivity.
  - intros Hp Hr. apply Hsug. unfold classify.
    apply any_in_false in Hp. apply any_in_spec in Hr.
    rewrite Hp, Hr. reflexivity.
  - intros Hp Hr Ha. apply Hsug. unfold classify.
    apply any_in_false in Hp, Hr. apply any_in_spec in Ha.
    rewrite Hp, Hr, Ha. reflexivity.
  - intros Hp Hr Ha o Ho El.
    apply opportunities_in in Ho as [h' (Hh' & Hc & E)].
    assert (h' = h) as ->.
    { apply (nodup_map_inj _ _ _ N); auto. rewrite E in El. exact El. }
    fold s in Hc. unfold classify in Hc.
    apply any_in_false in Hp, Hr, Ha. rewrite Hp, Hr, Ha in Hc.
    discriminate.
Qed.

(** ** The concept extractor *)

Section ConceptFacts.

Lemma eqs_refl (a : str) : eqs a a = true.
Proof. apply eqs_eq; reflexivity. Qed.

Lemma eqs_neq (a b : str) : eqs a b = false <-> a <> b.
Proof.
  rewrite <- eqs_eq. destruct (eqs a b); split; congruence.
Qed.

Lemma counter_add_keys (w : str) (c : list (str * nat)) :
  (In w (keys c) -> keys (counter_add w c) = keys c) /\
  (~ In w (keys c) -> keys (counter_add w c) = keys c ++ [w]).
Proof.
  induction c as [|[k n] c [IH1 IH2]]; simpl.
  - split; [tauto | reflexivity].
  - destruct (eqs k w) eqn:E; simpl.
    + apply eqs_eq in E; subst. split; [reflexivity | tauto].
    + apply eqs_neq in E. split; intros H; f_equal.
      * apply IH1. destruct H; [contradiction | assumption].
      * apply IH2. tauto.
Qed.

Lemma counter_add_tally (w k : str) (c : list (str * nat)) :
  tally k (counter_add w c)
  = tally k c + (if str_eq_dec w k then 1 else 0).
Proof.
  induction c as [|[k' n] c IH]; simpl.
  - destruct (str_eq_dec w k) as [->|N].
    + rewrite eqs_refl; reflexivity.
    + apply eqs_neq in N. rewrite N; reflexivity.
  - destruct (eqs k' w) eqn:E; simpl.
    + apply eqs_eq in E; subst k'.
      destruct (str_eq_dec w k) as [->|N].
      * rewrite eqs_refl; lia.
      * apply eqs_neq in N. rewrite N; lia.
    + destruct (eqs k' k) eqn:E'; auto.
      apply eqs_eq in E'; subst k'. apply eqs_neq in E.
      destruct (str_eq_dec w k); [congruence | lia].
Qed.

Lemma Counter_snoc (ws : list str) (w : str) :
  Counter (ws ++ [w]) = counter_add w (Counter ws).
Proof. unfold Counter. rewrite fold_left_app. reflexivity. Qed.

Lemma count_snoc (ws : list str) (w k : str) :
  count k (ws ++ [w]) = count k ws + (if str_eq_dec w k then 1 else 0).
Proof.
  unfold count. rewrite count_occ_app. simpl.
  destruct (str_eq_dec w k); reflexivity.
Qed.

Lemma Counter_tally (ws : list str) (k : str) :
  tally k (Counter ws) = count k ws.
Proof.
  induction ws as [|w ws IH] using rev_ind; [reflexivity|].
  rewrite Counter_snoc, counter_add_tally, count_snoc, IH. reflexivity.
Qed.

Lemma Counter_keys_in (ws : list str) (k : str) :
  In k (keys (Counter ws)) <-> In k ws.
Proof.
  induction ws as [|w ws IH] using rev_ind; [simpl; tauto|].
  rewrite Counter_snoc, in_app_iff. simpl.
  destruct (counter_add_keys w (Counter ws)) as [H1 H2].
  destruct (in_dec str_eq_dec w (keys (Counter ws))) as [Hin|Hout].
  - rewrite (H1 Hin), IH. split; [tauto|].
    intros [H | [<- | []]]; auto. apply IH; auto.
  - rewrite (H2 Hout), in_app_iff, IH. simpl. tauto.
Qed.

Lemma first_index_app_in (k : str) (ws r : list str) :
  In k ws -> first_index k (ws ++ r) = first_index k ws.
Proof.
  induction ws as [|x ws IH]; simpl; [tauto|].
  intros H. destruct (eqs x k) eqn:E; auto.
  apply eqs_neq in E. destruct H; [contradiction|]. rewrite IH; auto.
Qed.

Lemma first_index_lt (k : str) (ws : list str) :
  In k ws -> first_index k ws < length ws.
Proof.
  induction ws as [|x ws IH]; simpl; [tauto|].
  intros H. destruct (eqs x k) eqn:E; [lia|].
  apply eqs_neq in E. destruct H; [contradiction|].
  specialize (IH H). lia.
Qed.

Lemma first_index_fresh (k : str) (ws : list str) :
  ~ In k ws -> first_index k (ws ++ [k]) = length ws.
Proof.
  induction ws as [|x ws IH]; simpl; intros H.
  - rewrite eqs_refl; reflexivity.
  - destruct (eqs x k) eqn:E.
    + apply eqs_eq in E; subst. tauto.
    + rewrite IH; tauto.
Qed.

Lemma StronglySorted_impl_in {A : Type} (R R' : A -> A -> Prop)
    (l : list A) :
  (forall a b, In a l -> In b l -> R a b -> R' a b) ->
  StronglySorted R l -> StronglySorted R' l.
Proof.
  induction l as [|x l IH]; intros H S; [constructor|].
  inversion S as [|? ? Sl Fx]; subst. constructor.
  - apply IH; auto. intros a b Ha Hb. apply H; simpl; auto.
  - rewrite Forall_forall in *. intros b Hb.
    apply H; simpl; auto.
Qed.

Lemma StronglySorted_snoc {A : Type} (R : A -> A -> Prop)
    (l : list A) (x : A) :
  StronglySorted R l -> Forall (fun a => R a x) l ->
  StronglySorted R (l ++ [x]).
Proof.
  induction l as [|y l IH]; simpl; intros S F.
  - repeat constructor.
  - inversion S as [|? ? Sl Fy]; inversion F; subst. constructor; auto.
    apply Forall_app; split; auto.
Qed.

Lemma StronglySorted_app {A : Type} (R : A -> A -> Prop) (l1 l2 : list A) :
  StronglySorted R (l1 ++ l2) ->
  StronglySorted R l1 /\
  forall a b, In a l1 -> In b l2 -> R a b.
Proof.
  induction l1 as [|x l1 IH]; simpl; intros S.
  - split; [constructor | tauto].
  - inversion S as [|? ? Sl Fx]; subst.
    destruct (IH Sl) as [S1 H]. split.
    + constructor; auto. apply Forall_app in Fx. tauto.
    + intros a b [<- | Ha] Hb; auto.
      rewrite Forall_forall in Fx. apply Fx, in_or_app; auto.
Qed.

Lemma StronglySorted_map {A B : Type} (f : A -> B) (R : B -> B -> Prop)
    (l : list A) :
  StronglySorted (fun a b => R (f a) (f b)) l ->
  StronglySorted R (map f l).
Proof.
  induction 1 as [|x l S IH F]; simpl; constructor; auto.
  rewrite Forall_forall in *. intros b Hb.
  apply in_map_iff in Hb as [a [<- Ha]]. auto.
Qed.

(** The keys of the counter are in the order of their first
    occurrence. *)
Lemma Counter_keys_sorted (ws : list str) :
  StronglySorted (fun a b => first_index a ws < first_index b ws)
                 (keys (Counter ws)).
Proof.
  induction ws as [|w ws IH] using rev_ind; [constructor|].
  rewrite Counter_snoc.
  destruct (counter_add_keys w (Counter ws)) as [H1 H2].
  assert (Hold : StronglySorted
                   (fun a b => first_index a (ws ++ [w])
                               < first_index b (ws ++ [w]))
                   (keys (Counter ws))).
  { eapply StronglySorted_impl_in; [|exact IH]. simpl.
    intros a b Ha Hb.
    apply (proj1 (Counter_keys_in _ _)) in Ha.
    apply (proj1 (Counter_keys_in _ _)) in Hb.
    rewrite !first_index_app_in by assumption. auto. }
  destruct (in_dec str_eq_dec w (keys (Counter ws))) as [Hin|Hout].
  - rewrite (H1 Hin). exact Hold.
  - rewrite (H2 Hout). apply StronglySorted_snoc; auto.
    rewrite Forall_forall. intros a Ha.
    apply (proj1 (Counter_keys_in _ _)) in Ha.
    rewrite first_index_app_in by assumption.
    rewrite first_index_fresh.
    + apply first_index_lt; assumption.
    + intros H. apply Hout, Counter_keys_in. exact H.
Qed.

Lemma sorted_nodup (ws : list str) (l : list str) :
  StronglySorted (fun a b => first_index a ws < first_index b ws) l ->
  NoDup l.
Proof.
  induction 1 as [|x l S IH F]; constructor; auto.
  intros Hin. rewrite Forall_forall in F. specialize (F x Hin). lia.
Qed.

Lemma tally_in (c : list (str * nat)) (k : str) (n : nat) :
  NoDup (keys c) -> In (k, n) c -> tally k c = n.
Proof.
  induction c as [|[k' n'] c IH]; simpl; intros N H; [tauto|].
  inversion N as [|? ? Hk Hn]; subst.
  destruct H as [[= -> ->] | H].
  - rewrite eqs_refl; reflexivity.
  - destruct (eqs k' k) eqn:E; [|auto].
    apply eqs_eq in E; subst. exfalso. apply Hk.
    change k with (fst (k, n)). apply in_map. exact H.
Qed.

Lemma Counter_entries (ws : list str) (k : str) (n : nat) :
  In (k, n) (Counter ws) -> n = count k ws /\ In k ws.
Proof.
  intros H. split.
  - rewrite <- Counter_tally. symmetry. apply tally_in; auto.
    eapply sorted_nodup, Counter_keys_sorted.
  - apply Counter_keys_in. change k with (fst (k, n)).
    apply in_map. exact H.
Qed.

End ConceptFacts.

Section SortFacts.

Variable before : str * nat -> str * nat -> Prop.

Lemma insert_desc_perm (x : str * nat) (l : list (str * nat)) :
  Permutation (insert_desc x l) (x :: l).
Proof.
  induction l as [|y l IH]; simpl; auto.
  destruct (snd y <=? snd x); auto.
  rewrite IH. apply perm_swap.
Qed.

Lemma sorted_desc_perm (l : list (str * nat)) :
  Permutation (sorted_desc l) l.
Proof.
  induction l as [|x l IH]; simpl; auto.
  rewrite insert_desc_perm. auto.
Qed.

Lemma insert_desc_sorted (x : str * nat) (l : list (str * nat)) :
  StronglySorted (lex before) l -> Forall (before x) l ->
  StronglySorted (lex before) (insert_desc x l).
Proof.
  induction l as [|y l IH]; simpl; intros S F.
  - repeat constructor.
  - inversion S as [|? ? Sl Fy]; inversion F as [|? ? Bxy Fx]; subst.
    destruct (snd y <=? snd x) eqn:E.
    + apply Nat.leb_le in E. constructor; auto. constructor.
      * unfold lex. destruct (Nat.eq_dec (snd y) (snd x)); [right|left];
          auto; lia.
      * rewrite Forall_forall in *. intros z Hz.
        specialize (Fy z Hz). specialize (Fx z Hz). unfold lex in *.
        destruct (Nat.eq_dec (snd z) (snd x)); [right; auto | left; lia].
    + apply Nat.leb_gt in E. constructor; auto.
      rewrite Forall_forall in *. intros z Hz.
      apply (Permutation_in _ (insert_desc_perm x l)) in Hz.
      destruct Hz as [<- | Hz]; [left; exact E | auto].
Qed.

Lemma sorted_desc_sorted (l : list (str * nat)) :
  StronglySorted before l -> StronglySorted (lex before) (sorted_desc l).
Proof.
  induction 1 as [|x l S IH F]; simpl; [constructor|].
  apply insert_desc_sorted; auto.
  rewrite Forall_forall in *. intros z Hz. apply F.
  exact (Permutation_in _ (sorted_desc_perm l) Hz).
Qed.

End SortFacts.

Lemma StronglySorted_unmap {A B : Type} (f : A -> B) (R : B -> B -> Prop)
    (l : list A) :
  StronglySorted R (map f l) ->
  StronglySorted (fun a b => R (f a) (f b)) l.
Proof.
  induction l as [|x l IH]; simpl; intros S; [constructor|].
  inversion S as [|? ? Sl Fx]; subst. constructor; auto.
  rewrite Forall_forall in *. intros b Hb. apply Fx, in_map; auto.
Qed.

Lemma ranked_nodup (ws cs : list str) :
  StronglySorted (ranks_before ws) cs -> NoDup cs.
Proof.
  induction 1 as [|x l S IH F]; constructor; auto.
  intros Hin. rewrite Forall_forall in F.
  destruct (F x Hin) as [H | [_ H]]; lia.
Qed.

(** C7, counterexample: in [API Hello] both tokens occur once and the
    acronym comes first in the text, but the result is [Hello], [API]. *)
Lemma acronym_ranked_after_word :
  ~ ranked_by_text_order (init (lit "API Hello") []).
Proof.
  unfold ranked_by_text_order.
  assert (E : extract_key_concepts (init (lit "API Hello") [])
              = [lit "Hello"; lit "API"]) by (vm_compute; reflexivity).
  rewrite E. intros S. inversion S as [|? ? _ F]; subst.
  inversion F as [|? ? H _]; subst.
  unfold text_ranks_before in H.
  vm_compute in H. destruct H as [H | [_ H]]; lia.
Qed.

(** C7, amended: the extractor returns at most 10 distinct tokens of
    the two families, by descending count; equally frequent tokens
    follow the order of their first occurrence in the list of all
    CamelCase matches followed by all acronym matches (not the order of
    the text); a token left out ranks after every token returned. *)
Theorem concepts_ranked (self : optimizer) :
  let ws := concept_words self in
  let cs := extract_key_concepts self in
  length cs <= 10 /\
  NoDup cs /\
  (forall c, In c cs -> In c ws) /\
  StronglySorted (ranks_before ws) cs /\
  (forall w, In w ws -> ~ In w cs ->
             length cs = 10 /\ forall c, In c cs -> ranks_before ws c w).
Proof.
  intros ws cs.
  set (bef := fun a b : str * nat =>
                first_index (fst a) ws < first_index (fst b) ws).
  set (S := sorted_desc (Counter ws)).
  assert (HS : StronglySorted (lex bef) S).
  { apply sorted_desc_sorted.
    apply (StronglySorted_unmap fst
             (fun a b => first_index a ws < first_index b ws)).
    apply Counter_keys_sorted. }
  assert (Hin : forall a, In a S -> snd a = count (fst a) ws /\
                                    In (fst a) ws).
  { intros [k n] Ha.
    apply (Permutation_in _ (sorted_desc_perm (Counter ws))) in Ha.
    apply Counter_entries. exact Ha. }
  assert (Hlex : forall a b, In a S -> In b S -> lex bef a b ->
                             ranks_before ws (fst a) (fst b)).
  { intros a b Ha Hb H. destruct (Hin a Ha) as [Ea _].
    destruct (Hin b Hb) as [Eb _]. unfold lex, bef, ranks_before in *.
    rewrite <- Ea, <- Eb. exact H. }
  assert (Hsplit : S = firstn 10 S ++ skipn 10 S)
    by (symmetry; apply firstn_skipn).
  assert (Ecs : cs = map fst (firstn 10 S)) by reflexivity.
  assert (Hsub : forall a, In a (firstn 10 S) -> In a S).
  { intros a Ha. rewrite Hsplit. apply in_or_app; auto. }
  assert (HR : StronglySorted (ranks_before ws) cs).
  { rewrite Ecs. apply StronglySorted_map.
    rewrite Hsplit in HS. apply StronglySorted_app in HS as [HS _].
    eapply StronglySorted_impl_in; [|exact HS]. simpl.
    intros a b Ha Hb. apply Hlex; auto. }
  split; [rewrite Ecs, length_map, length_firstn; lia|].
  split; [eapply ranked_nodup; eauto|].
  split.
  { intros c Hc. rewrite Ecs in Hc. apply in_map_iff in Hc as [a [<- Ha]].
    apply Hin, Hsub, Ha. }
  split; [exact HR|].
  intros w Hw Hout.
  assert (Hk : In w (keys (Counter ws))) by (apply Counter_keys_in; auto).
  apply in_map_iff in Hk as [a [Ea Ha]].
  apply (Permutation_in _ (Permutation_sym (sorted_desc_perm _))) in Ha.
  fold S in Ha. rewrite Hsplit in Ha. apply in_app_or in Ha as [Ha | Ha].
  { exfalso. apply Hout. rewrite Ecs, <- Ea. apply in_map; auto. }
  split.
  - rewrite Ecs, length_map, length_firstn.
    destruct (le_lt_dec (length S) 10) as [L|L]; [|lia].
    rewrite skipn_all2 in Ha by assumption. destruct Ha.
  - intros c Hc. rewrite Ecs in Hc.
    apply in_map_iff in Hc as [b [<- Hb]]. rewrite <- Ea.
    apply Hlex; auto.
    + rewrite Hsplit. apply in_or_app; auto.
    + rewrite Hsplit in HS. apply StronglySorted_app in HS as [_ H].
      apply H; auto.
Qed.

(** ** Noise removal *)

Section NoiseFacts.

Lemma ends_blank_snoc (c : list str) (l : str) :
  ends_blank (c ++ [l]) = is_blank l.
Proof.
  unfold ends_blank. rewrite last_last.
  destruct c; reflexivity.
Qed.

Lemma noise_run (ls : list str) :
  forall st,
    cleaned (fold_left noise_step ls st)
    = cleaned st ++ emit (in_frontmatter st) (frontmatter_count st)
                         (ends_blank (cleaned st)) ls.
Proof.
  induction ls as [|l ls IH]; intros st; simpl.
  - rewrite app_nil_r; reflexivity.
  - rewrite IH. unfold noise_step.
    destruct (is_delimiter l && _); simpl.
    + rewrite ends_blank_snoc, <- app_assoc. reflexivity.
    + destruct (negb (in_frontmatter st) && is_noise l); simpl; auto.
      destruct (is_blank l && ends_blank (cleaned st)); simpl; auto.
      rewrite ends_blank_snoc, <- app_assoc. reflexivity.
Qed.

Lemma remove_noise_lines_emit (ls : list str) :
  remove_noise_lines ls = emit false 0 false ls.
Proof. unfold remove_noise_lines. rewrite noise_run. reflexivity. Qed.

Lemma delimiter_not_blank (l : str) :
  is_delimiter l = true -> is_blank l = false.
Proof.
  unfold is_delimiter, is_blank. intros H. apply eqs_eq in H.
  rewrite H. reflexivity.
Qed.

Lemma emit_until_delimiter (a : list str) :
  forall fm cnt pb d b,
    Forall (fun l => is_delimiter l = false) a ->
    is_delimiter d = true -> cnt < 2 ->
    emit fm cnt pb (a ++ d :: b)
    = emit fm cnt pb a ++ d :: emit (negb fm) (S cnt) false b.
Proof.
  induction a as [|l a IH]; intros fm cnt pb d b F Hd Hc; simpl.
  - rewrite Hd. simpl.
    destruct (cnt <=? 1) eqn:E; [|apply Nat.leb_gt in E; lia].
    rewrite (delimiter_not_blank d Hd). reflexivity.
  - inversion F as [|? ? Hl Fa]; subst. rewrite Hl. simpl.
    destruct (negb fm && is_noise l); [apply IH; auto|].
    destruct (is_blank l && pb); [apply IH; auto|].
    simpl. rewrite IH; auto.
Qed.

Lemma emit_frontmatter (a : list str) :
  forall cnt pb,
    Forall (fun l => is_delimiter l = false) a ->
    emit true cnt pb a = squeeze pb a.
Proof.
  induction a as [|l a IH]; intros cnt pb F; simpl; auto.
  inversion F as [|? ? Hl Fa]; subst. rewrite Hl. simpl.
  destruct (is_blank l && pb); rewrite IH; auto.
Qed.

Lemma emit_outside (a : list str) :
  forall cnt pb,
    Forall (fun l => is_delimiter l = false) a \/ 2 <= cnt ->
    Forall (fun l => is_noise l = false /\ In l a) (emit false cnt pb a).
Proof.
  induction a as [|l a IH]; intros cnt pb H; simpl; [constructor|].
  assert (Hrec : forall c p,
             (if is_delimiter l then S cnt else cnt) = c ->
             Forall (fun x => is_noise x = false /\ (l = x \/ In x a))
                    (emit false c p a)).
  { intros c p Ec. eapply Forall_impl; [|apply (IH c p)].
    - simpl. tauto.
    - destruct H as [F | Hc]; [left; inversion F; auto|].
      right. subst c. destruct (is_delimiter l); lia. }
  assert (Hfirst : is_delimiter l &&
                   ((if is_delimiter l then S cnt else cnt) <=? 2) = false).
  { destruct H as [F | Hc].
    - inversion F as [|? ? Hl _]; subst. rewrite Hl. reflexivity.
    - destruct (is_delimiter l); auto. simpl.
      apply Nat.leb_gt. lia. }
  rewrite Hfirst. simpl.
  destruct (is_noise l) eqn:N; [apply Hrec; reflexivity|].
  destruct (is_blank l && pb); [apply Hrec; reflexivity|].
  constructor; [auto | apply Hrec; reflexivity].
Qed.

Lemma squeeze_nonblank (ls : list str) :
  forall pb,
    filter (fun l => negb (is_blank l)) (squeeze pb ls)
    = filter (fun l => negb (is_blank l)) ls.
Proof.
  induction ls as [|l ls IH]; intros pb; simpl; auto.
  destruct (is_blank l) eqn:B; simpl.
  - destruct pb; simpl; [|rewrite B; simpl]; apply IH.
  - rewrite B. simpl. f_equal. apply IH.
Qed.

End NoiseFacts.

Section RuleFacts.

Lemma run_chr (p : ascii -> bool) (s s' : mstate) :
  In s' (run (Chr p) s) <->
  exists x t, rest s = x :: t /\ p x = true /\
              s' = MState (x :: seen s) t (groups s).
Proof.
  simpl. destruct (rest s) as [|x t].
  - split; [intros [] | intros [x [t (H & _)]]; discriminate].
  - destruct (p x) eqn:P; simpl; split.
    + intros [<- | []]. exists x, t. split; [reflexivity|]. split; [exact P | reflexivity].
    + intros [x' [t' (E & _ & ->)]]. injection E as <- <-. auto.
    + intros [].
    + intros [x' [t' (E & P' & _)]]. injection E as <- <-. congruence.
Qed.

Lemma rule_re_sound (c : ascii) (l : str) (m : mstate) :
  In m (run (rule_re c) (start l)) ->
  exists a n b,
    l = a ++ repeat c n ++ b /\ 3 <= n /\
    forallb is_space a = true /\ forallb is_space b = true.
Proof.
  intros Hin. unfold rule_re, star_of, plus_of in Hin.
  apply run_cat in Hin as [s1 [H1 Hin]].
  apply run_bol in H1 as [_ ->].
  apply run_cat in Hin as [s2 [H2 Hin]].
  apply run_rep_chr in H2 as [a [b1 (E1 & _ & _ & Pa & ->)]].
  simpl in E1; subst l.
  apply run_cat in Hin as [s3 [H3 Hin]].
  apply run_chr in H3 as [x1 [b2 (E2 & P1 & ->)]].
  simpl in E2; subst b1. apply eqc_eq in P1; subst x1.
  apply run_cat in Hin as [s4 [H4 Hin]].
  apply run_chr in H4 as [x2 [b3 (E3 & P2 & ->)]].
  simpl in E3; subst b2. apply eqc_eq in P2; subst x2.
  apply run_cat in Hin as [s5 [H5 Hin]].
  apply run_rep_chr in H5 as [r [b4 (E4 & Hr & _ & Pr & ->)]].
  simpl in E4; subst b3.
  apply run_cat in Hin as [s6 [H6 Hin]].
  apply run_rep_chr in H6 as [w [e (E5 & _ & _ & Pw & ->)]].
  simpl in E5; subst b4.
  apply run_eol in Hin as [He _]. simpl in He.
  exists a, (S (S (length r))), (w ++ e). simpl.
  rewrite <- (forallb_chr_is _ _ Pr). repeat split; auto; try lia.
  rewrite forallb_app, Pw. destruct He as [-> | ->]; reflexivity.
Qed.

Lemma rule_re_complete (c : ascii) (a b : str) (n : nat) :
  3 <= n -> forallb is_space a = true -> forallb is_space b = true ->
  exists m, In m (run (rule_re c) (start (a ++ repeat c n ++ b))).
Proof.
  intros Hn Pa Pb. destruct n as [|[|[|n]]]; try lia.
  eexists. unfold rule_re, star_of, plus_of.
  apply run_cat. eexists; split; [apply run_bol; split; reflexivity|].
  apply run_cat. eexists; split.
  { apply run_rep_chr. exists a, (repeat c (S (S (S n))) ++ b).
    simpl. repeat split; auto; lia. }
  apply run_cat. eexists; split.
  { apply run_chr. simpl. do 2 eexists. split; [reflexivity|].
    split; [apply eqc_refl | reflexivity]. }
  apply run_cat. eexists; split.
  { apply run_chr. simpl. do 2 eexists. split; [reflexivity|].
    split; [apply eqc_refl | reflexivity]. }
  apply run_cat. eexists; split.
  { apply run_rep_chr. exists (repeat c (S n)), b.
    rewrite repeat_length. simpl.
    repeat split; auto; try lia.
    unfold chr_is at 1. rewrite eqc_refl. apply forallb_repeat. }
  apply run_cat. eexists; split.
  { apply run_rep_chr. exists b, []. simpl. rewrite app_nil_r.
    repeat split; auto; lia. }
  apply run_eol. simpl. auto.
Qed.

Lemma is_noise_spec (l : str) : is_noise l = true <-> rule_line l.
Proof.
  unfold is_noise, noise_patterns, rule_line. simpl.
  rewrite orb_false_r, orb_true_iff. split.
  - intros [H | H].
    + destruct (re_match (rule_re dash) l) as [m|] eqn:E; [|discriminate].
      apply re_match_in, rule_re_sound in E as [a [n [b (E & Hn & Pa & Pb)]]].
      exists a, n, b, dash. repeat split; auto.
    + destruct (re_match (rule_re star) l) as [m|] eqn:E; [|discriminate].
      apply re_match_in, rule_re_sound in E as [a [n [b (E & Hn & Pa & Pb)]]].
      exists a, n, b, star. repeat split; auto.
  - intros [a [n [b [c (-> & Hn & Pa & Pb & Hc)]]]].
    destruct (rule_re_complete c a b n Hn Pa Pb) as [m Hm].
    apply re_match_some in Hm as [m' Hm'].
    destruct Hc as [-> | ->]; [left | right]; rewrite Hm'; reflexivity.
Qed.

Lemma forallb_rev (p : ascii -> bool) (s : str) :
  forallb p (rev s) = forallb p s.
Proof.
  induction s as [|c s IH]; simpl; auto.
  rewrite forallb_app, IH. simpl. rewrite andb_true_r, andb_comm.
  reflexivity.
Qed.

Lemma strip_decompose (l : str) :
  exists a b, l = a ++ strip l ++ b /\
              forallb is_space a = true /\ forallb is_space b = true.
Proof.
  exists (take_while is_space l),
         (rev (take_while is_space (rev (lstrip l)))).
  split; [|split].
  - unfold strip, rstrip. rewrite <- rev_app_distr, take_drop_while.
    rewrite rev_involutive. unfold lstrip.
    rewrite take_drop_while. reflexivity.
  - apply take_while_all.
  - rewrite forallb_rev. apply take_while_all.
Qed.

Lemma delimiter_rule (l : str) : is_delimiter l = true -> rule_line l.
Proof.
  unfold is_delimiter. intros H. apply eqs_eq in H.
  destruct (strip_decompose l) as [a [b (E & Pa & Pb)]].
  rewrite H in E. exists a, 3, b, dash. repeat split; auto.
Qed.


End RuleFacts.

(** ** Claims about noise removal and front-matter *)



(** C4, counterexample: in a front-matter region with the lines
    [### x], two empty lines and [y], noise removal drops an empty line
    and the normalization rewrites [### x] to [## x]. *)
Lemma frontmatter_altered :
  ~ frontmatter_kept_by_noise_removal commented_frontmatter /\
  ~ frontmatter_kept_by_normalization commented_frontmatter [].
Proof.
  assert (B : frontmatter_block (split_nl commented_frontmatter)
                (lit "---") [lit "### x"; []; []; lit "y"]
                (lit "---") [lit "z"]).
  { repeat split; try reflexivity. repeat constructor. }
  split; intros H; specialize (H _ _ _ _ B).
  - destruct H as [post' H]. vm_compute in H. discriminate.
  - destruct H as [out [post' [H1 H2]]].
    vm_compute in H1. injection H1 as <-.
    vm_compute in H2. discriminate.
Qed.

Lemma normalize_split (content : str) :
  split_nl (join_nl (normalize_lines 1 (split_nl content)))
  = normalize_lines 1 (split_nl content).
Proof.
  apply split_nl_join_nl.
  - intros E. apply (f_equal (@length str)) in E.
    rewrite normalize_lines_length in E.
    destruct (split_nl content) eqn:S; [|discriminate].
    exact (split_nl_nonempty content S).
  - apply normalize_lines_free, split_nl_free.
Qed.

(** C4, amended: in a document that begins with a front-matter block,
    noise removal keeps the two delimiter lines and, between them, every
    line of the region in order, horizontal rules included, except that
    a run of blank lines is collapsed to one; so every non-blank line of
    the region is kept.  The hierarchy normalization does not know the
    block: it leaves a line of the region unchanged when the line is not
    heading-shaped. *)
Theorem frontmatter_lines_kept (content src : str) (d1 : str)
    (fm : list str) (d2 : str) (post : list str) :
  frontmatter_block (split_nl content) d1 fm d2 post ->
  (exists rest_out,
      remove_noise_lines (split_nl content)
      = d1 :: squeeze false fm ++ d2 :: rest_out) /\
  filter (fun l => negb (is_blank l)) (squeeze false fm)
  = filter (fun l => negb (is_blank l)) fm /\
  (exists out,
      normalize_heading_hierarchy (init content src) = Some out /\
      length (split_nl out) = length (split_nl content) /\
      forall i l,
        nth_error fm i = Some l ->
        (forall h w t, ~ heading_shape l h w t) ->
        nth_error (split_nl out) (S i) = Some l).
Proof.
  intros (E & Hd1 & Hd2 & Hfm). split; [|split].
  - exists (emit false 2 false post).
    rewrite E, remove_noise_lines_emit.
    assert (H0 := emit_until_delimiter [] false 0 false d1
                    (fm ++ d2 :: post) (Forall_nil _) Hd1 Nat.lt_0_2).
    change ([] ++ d1 :: fm ++ d2 :: post) with (d1 :: fm ++ d2 :: post)
      in H0.
    rewrite H0. cbn [emit app negb].
    rewrite emit_until_delimiter by (auto; lia).
    rewrite emit_frontmatter by exact Hfm. reflexivity.
  - apply squeeze_nonblank.
  - eexists. split; [apply normalize_spec|].
    rewrite normalize_split, normalize_lines_length.
    split; [reflexivity|]. intros i l Hl Hno.
    assert (Hl' : nth_error (split_nl content) (S i) = Some l).
    { rewrite E. simpl. rewrite nth_error_app1; auto.
      apply nth_error_Some. congruence. }
    assert (Hn := normalize_lines_nth (split_nl content) 1 (S i) l
                    (split_nl_free content) Hl').
    destruct (re_match heading_re l) as [m|] eqn:Hm; auto.
    destruct (heading_match_some l m
                (nth_error_free content (S i) l Hl') Hm) as [w (Hs & _)].
    exfalso. exact (Hno _ _ _ Hs).
Qed.

(** The theorem of C4 at a document with a one-line front-matter. *)
Lemma frontmatter_lines_kept_witness :
  frontmatter_block
    (split_nl (join_nl [lit "---"; lit "title: x"; lit "---"; lit "body"]))
    (lit "---") [lit "title: x"] (lit "---") [lit "body"] /\
  exists rest_out,
    remove_noise_lines
      (split_nl (join_nl [lit "---"; lit "title: x"; lit "---"; lit "body"]))
    = lit "---" :: squeeze false [lit "title: x"] ++ lit "---" :: rest_out.
Proof.
  assert (B : frontmatter_block
                (split_nl
                   (join_nl [lit "---"; lit "title: x"; lit "---";
                             lit "body"]))
                (lit "---") [lit "title: x"] (lit "---") [lit "body"]).
  { repeat split; try reflexivity. repeat constructor. }
  split; [exact B|].
  exact (proj1 (frontmatter_lines_kept
                  (join_nl [lit "---"; lit "title: x"; lit "---";
                            lit "body"]) [] _ _ _ _ B)).
Defined.

(** ** Claims about the pipeline *)

(** C3: the second run on the document [# A --- B] cuts the old block
    at the [---] inside its title line, so the rest of the old block
    stays in the body, below the new block. *)
Lemma rerun_keeps_old_frontmatter :
  optimize (init (lit "# A --- B") [])
  = Some (join_nl [lit "---"; title_line (lit "A --- B"); lit "tokens: 2";
                   lit "optimized_for_llm: true"; lit "toc:";
                   lit "- A --- B"; lit "---"; []; lit "# A --- B"]) /\
  optimize_twice (lit "# A --- B") []
  = Some (join_nl [lit "---"; title_line (lit "A --- B"); lit "tokens: 16";
                   lit "optimized_for_llm: true"; lit "toc:";
                   lit "- A --- B"; lit "---"; [];
                   lit " B" ++ [quote]; lit "tokens: 2";
                   lit "optimized_for_llm: true"; lit "toc:";
                   lit "- A --- B"; lit "---"; []; lit "# A --- B"]).
Proof. split; vm_compute; reflexivity. Qed.

Section PipelineFacts.

Lemma emit_subset (ls : list str) :
  forall fm cnt pb l, In l (emit fm cnt pb ls) -> In l ls.
Proof.
  induction ls as [|x ls IH]; intros fm cnt pb l; simpl; [tauto|].
  destruct (is_delimiter x && _); simpl.
  - intros [<- | H]; eauto.
  - destruct (negb fm && is_noise x); [eauto|].
    destruct (is_blank x && pb); [eauto|].
    simpl. intros [<- | H]; eauto.
Qed.

Lemma extract_from_nil (ls : list str) :
  forall i,
    extract_from i ls = [] <->
    Forall (fun l => re_match heading_re l = None) ls.
Proof.
  induction ls as [|l ls IH]; intros i; simpl.
  - split; auto.
  - destruct (re_match heading_re l) eqn:E; split.
    + discriminate.
    + intros F. inversion F; congruence.
    + intros H. constructor; auto. apply (IH (S i)); auto.
    + intros F. inversion F; subst. apply IH; auto.
Qed.

(** Noise removal makes no heading. *)
Lemma remove_noise_no_heading (content src : str) :
  extract_headings (init content src) = [] ->
  extract_headings (init (remove_noise content) src) = [].
Proof.
  unfold extract_headings, init; simpl. intros H.
  apply extract_from_nil in H. apply extract_from_nil.
  unfold remove_noise.
  destruct (remove_noise_lines (split_nl content)) as [|x xs] eqn:E.
  - repeat constructor.
  - assert (Hsub : forall l, In l (x :: xs) -> In l (split_nl content)).
    { intros l Hl. rewrite <- E, remove_noise_lines_emit in Hl.
      eapply emit_subset; eauto. }
    rewrite split_nl_join_nl.
    + rewrite Forall_forall in *. auto.
    + discriminate.
    + rewrite Forall_forall. intros l Hl.
      exact (proj1 (Forall_forall _ _) (split_nl_free content) l
               (Hsub l Hl)).
Qed.

Lemma concept_lines_in (cs : list str) (x : str) :
  In x (concept_lines cs) ->
  x = lit "concepts:" \/ exists c, x = lit "  - " ++ c.
Proof.
  unfold concept_lines. destruct cs as [|c cs]; [intros []|].
  intros [<- | H]; auto. right.
  apply in_map_iff in H as [c' [<- _]]. eauto.
Qed.

(** What [split] leaves after a separator is an end of the text. *)
Lemma partition_at_suffix (sep s a b : str) :
  partition_at sep s = Some (a, b) -> exists pre, s = pre ++ b.
Proof.
  revert a b. induction s as [|c s IH]; intros a b; simpl.
  - destruct (startswith sep []); [|discriminate].
    intros E. injection E as _ <-. exists []. destruct (length sep);
      reflexivity.
  - destruct (startswith sep (c :: s)).
    + intros E. injection E as _ <-.
      exists (firstn (length sep) (c :: s)).
      symmetry. apply firstn_skipn.
    + destruct (partition_at sep s) as [[a' b']|]; [|discriminate].
      intros E. injection E as _ <-.
      destruct (IH _ _ eq_refl) as [pre ->]. exists (c :: pre). reflexivity.
Qed.

(** The text that step 3 of [optimize] returns is an end of the text
    that it gets. *)
Lemma strip_frontmatter_suffix (content : str) :
  exists pre, content = pre ++ strip_frontmatter content.
Proof.
  unfold strip_frontmatter.
  destruct (startswith (lit "---") content); [|exists []; reflexivity].
  cbn [split_max].
  destruct (partition_at (lit "---") content) as [[a b]|] eqn:E1;
    [|exists []; reflexivity].
  destruct (partition_at (lit "---") b) as [[a' b']|] eqn:E2;
    [|exists []; reflexivity].
  destruct (partition_at_suffix _ _ _ _ E1) as [p1 ->].
  destruct (partition_at_suffix _ _ _ _ E2) as [p2 ->].
  exists (p1 ++ p2 ++ take_while (eqc nl) b').
  unfold lstrip_nl. rewrite <- !app_assoc, take_drop_while. reflexivity.
Qed.

(** Every line of an end of a text, but the first, is a line of the
    text. *)
Lemma split_on_suffix (d : ascii) (pre b : str) (i : nat) (l : str) :
  nth_error (split_on d b) (S i) = Some l ->
  exists j, nth_error (split_on d (pre ++ b)) (S j) = Some l.
Proof.
  intros H. induction pre as [|c pre [j IH]]; [exists i; exact H|].
  cbn [app split_on]. destruct (eqc c d).
  - exists (S j). exact IH.
  - destruct (split_on d (pre ++ b)) as [|l0 ls]; [discriminate|].
    exists j. exact IH.
Qed.

(** In a document without headings, only the first line of the text
    that step 3 of [optimize] returns can be a heading. *)
Lemma body_heading_first (content src : str) :
  extract_headings (init content src) = [] ->
  forall hd,
    In hd (extract_headings
             (init (strip_frontmatter (remove_noise content)) src)) ->
    line hd = 0.
Proof.
  intros H0 hd Hin.
  apply (remove_noise_no_heading content src) in H0.
  unfold extract_headings, init in H0, Hin. cbn [lines] in H0, Hin.
  apply extract_from_nil in H0.
  apply (proj1 (extract_from_in _ 0 hd)) in Hin.
  destruct Hin as [j [l [m (Hl & Hm & ->)]]]. cbn [line].
  destruct j as [|j]; [reflexivity|]. exfalso.
  destruct (strip_frontmatter_suffix (remove_noise content)) as [pre E].
  destruct (split_on_suffix nl pre _ j l Hl) as [k Hk].
  unfold split_nl in H0. rewrite E in H0.
  apply nth_error_In in Hk.
  rewrite Forall_forall in H0. rewrite (H0 l Hk) in Hm. discriminate.
Qed.

(** A document with a heading gets a [toc] field. *)
Lemma toc_field_present (self : optimizer) :
  extract_headings self <> [] -> In (lit "toc:") (frontmatter_lines self).
Proof.
  intros H. unfold frontmatter_lines. rewrite !in_app_iff.
  right. right. left. unfold generate_toc, toc_lines.
  destruct (extract_headings self); [congruence|]. left. reflexivity.
Qed.

End PipelineFacts.

(** C8, counterexample: with the identifier [notes.md] the title is
    [notes]; and the one-line document [---x---# Title], which has no
    heading, gets a [toc] field. *)
Lemma title_is_stem_of_identifier :
  ~ zero_headings_claim (lit "plain text") (lit "notes.md") /\
  ~ zero_headings_claim (lit "---x---# Title") [].
Proof.
  split; intros H.
  - destruct (H eq_refl) as [fm (E & _ & _ & T)].
    vm_compute in E. injection E as <-.
    vm_compute in T.
    repeat (destruct T as [T | T]; [discriminate|]). exact T.
  - destruct (H eq_refl) as [fm (E & T & _)].
    vm_compute in E. injection E as <-.
    apply T. vm_compute.
    repeat (try (left; reflexivity); right).
Qed.

(** C8, amended: for a document without headings the pipeline
    returns, and puts the generated front-matter before the final
    body (the cleaned text after step 3).  Only the first line of the
    final body can be a heading, and none is when the cleaned text does
    not begin with [---].  When the final body has no heading, the
    front-matter has the title, token and marker lines, the concept
    lines if any, and no [toc] and no [suggested_diagrams] line; the
    title is the stem of the source path (last component without its
    suffix), or [Untitled] when the path is empty.  When the final
    body has a heading, the front-matter has a [toc] line. *)
Theorem zero_headings_frontmatter (content src : str) :
  extract_headings (init content src) = [] ->
  let body := strip_frontmatter (remove_noise content) in
  let fm :=
    [lit "---";
     title_line (match src with
                 | [] => lit "Untitled"
                 | _ => path_stem src
                 end);
     lit "tokens: " ++ of_nat (length body / 4);
     lit "optimized_for_llm: true"]
    ++ concept_lines (extract_key_concepts (init body src))
    ++ [lit "---"] in
  optimize (init content src)
  = Some (join_nl (frontmatter_lines (init body src))
          ++ [nl; nl] ++ body) /\
  (forall hd, In hd (extract_headings (init body src)) -> line hd = 0) /\
  (startswith (lit "---") (remove_noise content) = false ->
   extract_headings (init body src) = []) /\
  (extract_headings (init body src) = [] ->
   frontmatter_lines (init body src) = fm /\
   ~ In (lit "toc:") fm /\
   ~ In (lit "suggested_diagrams:") fm) /\
  (extract_headings (init body src) <> [] ->
   In (lit "toc:") (frontmatter_lines (init body src))).
Proof.
  intros H0 body fm.
  assert (Hb : body_of (init content src) = Some body).
  { unfold body_of, normalize_heading_hierarchy. rewrite H0.
    reflexivity. }
  split; [|split; [|split; [|split]]].
  - unfold optimize. rewrite Hb. reflexivity.
  - apply body_heading_first. exact H0.
  - intros Hs. unfold body, strip_frontmatter. rewrite Hs.
    apply remove_noise_no_heading. exact H0.
  - intros Hh.
    assert (Hfm : frontmatter_lines (init body src) = fm).
    { unfold frontmatter_lines, generate_toc,
        identify_diagram_opportunities, title_of.
      rewrite Hh. reflexivity. }
    split; [exact Hfm|].
    split; intros Hin; unfold fm in Hin; simpl in Hin;
      destruct Hin as [Hin | [Hin | [Hin | [Hin | Hin]]]];
      try discriminate;
      apply in_app_or in Hin as [Hin | [Hin | []]]; try discriminate;
      apply concept_lines_in in Hin as [Hin | [c Hin]]; discriminate.
  - apply toc_field_present.
Qed.

(** The theorem of C8 at a document with a front-matter block and no
    heading, read from [dir/notes.md]: the old block is dropped, the
    final body [plain text] has no heading, and the new block has the
    title [notes] and no [toc] line. *)
Lemma zero_headings_frontmatter_witness :
  extract_headings
    (init (join_nl [lit "---"; lit "k: v"; lit "---"; lit "plain text"])
       (lit "dir/notes.md")) = [] /\
  optimize
    (init (join_nl [lit "---"; lit "k: v"; lit "---"; lit "plain text"])
       (lit "dir/notes.md"))
  = Some (join_nl [lit "---"; title_line (lit "notes"); lit "tokens: 2";
                   lit "optimized_for_llm: true"; lit "---"; [];
                   lit "plain text"]) /\
  extract_headings (init (lit "plain text") (lit "dir/notes.md")) = [] /\
  ~ In (lit "toc:")
      [lit "---"; title_line (lit "notes"); lit "tokens: 2";
       lit "optimized_for_llm: true"; lit "---"].
Proof.
  pose proof (zero_headings_frontmatter
                (join_nl [lit "---"; lit "k: v"; lit "---";
                          lit "plain text"])
                (lit "dir/notes.md") eq_refl) as H.
  split; [reflexivity|].
  split; [exact (proj1 H)|].
  split; [reflexivity|].
  exact (proj1 (proj2 (proj1 (proj2 (proj2 (proj2 H))) eq_refl))).
Defined.

(** ** Scenarios of the specification *)

(** Scenario A: a level-4 heading after a level-1 heading becomes a
    level-2 heading. *)
Example scenario_deep_heading :
  normalize_heading_hierarchy
    (init (join_nl [lit "# Title"; lit "#### Deep"; lit "Text"]) [])
  = Some (join_nl [lit "# Title"; lit "## Deep"; lit "Text"]).
Proof. vm_compute. reflexivity. Qed.

(** Scenario B and the front-matter exemption: three blank lines
    become one, the two delimiter lines stay, the third goes. *)
Example scenario_blank_lines :
  remove_noise
    (join_nl [lit "---"; lit "k: v"; lit "---"; lit "a"; []; []; [];
              lit "b"; lit "---"; lit "***"; lit "c"])
  = join_nl [lit "---"; lit "k: v"; lit "---"; lit "a"; []; lit "b";
             lit "c"].
Proof. vm_compute. reflexivity. Qed.

(** Scenario C: process indicators win over architecture indicators. *)
Example scenario_process_wins :
  identify_diagram_opportunities
    (init (join_nl [lit "## Setup";
                    lit "First, configure the server, then start it.";
                    lit "Each component has a module."]) [])
  = [Opportunity (lit "Setup") Flowchart 0].
Proof. vm_compute. reflexivity. Qed.

(** Scenario D without a source path: the placeholder title. *)
Example scenario_untitled :
  optimize (init (lit "plain text") [])
  = Some (join_nl [lit "---"; title_line (lit "Untitled"); lit "tokens: 2";
                   lit "optimized_for_llm: true"; lit "---"; [];
                   lit "plain text"]).
Proof. vm_compute. reflexivity. Qed.

(** ** Further properties of noise removal *)

Section NoiseProperties.

Lemma emit_count_irrelevant (ls : list str) :
  forall c c' pb,
    2 <= c -> 2 <= c' -> emit false c pb ls = emit false c' pb ls.
Proof.
  induction ls as [|l ls IH]; intros c c' pb Hc Hc'; [reflexivity|].
  cbn [emit]. destruct (is_delimiter l) eqn:D; cbn [andb negb].
  - replace (S c <=? 2) with false by (symmetry; apply Nat.leb_gt; lia).
    replace (S c' <=? 2) with false by (symmetry; apply Nat.leb_gt; lia).
    destruct (is_noise l); [apply IH; lia|].
    destruct (is_blank l && pb); [apply IH; lia|].
    f_equal. apply IH; lia.
  - destruct (is_noise l); [apply IH; lia|].
    destruct (is_blank l && pb); [apply IH; lia|].
    f_equal. apply IH; lia.
Qed.

Lemma delimiter_noise (l : str) : is_delimiter l = true -> is_noise l = true.
Proof. intros H. apply is_noise_spec, delimiter_rule, H. Qed.

Lemma emit_idempotent (ls : list str) :
  forall fm cnt pb,
    loop_state fm cnt ->
    emit fm cnt pb (emit fm cnt pb ls) = emit fm cnt pb ls.
Proof.
  induction ls as [|l ls IH]; intros fm cnt pb St; [reflexivity|].
  cbn [emit]. destruct (is_delimiter l) eqn:D.
  - destruct St as [[-> ->] | [[-> ->] | [-> Hc]]].
    + cbn [andb Nat.leb negb]. cbn [emit]. rewrite D.
      cbn [andb Nat.leb negb]. f_equal. apply IH. right; left; auto.
    + cbn [andb Nat.leb negb]. cbn [emit]. rewrite D.
      cbn [andb Nat.leb negb]. f_equal. apply IH. right; right; auto.
    + destruct (S cnt <=? 2) eqn:E; [apply Nat.leb_le in E; lia|].
      rewrite (delimiter_noise l D). cbn [andb negb].
      rewrite (emit_count_irrelevant _ cnt (S cnt)) by lia.
      apply IH. right; right; split; auto.
  - cbn [andb].
    destruct (negb fm && is_noise l) eqn:N; [apply IH; exact St|].
    destruct (is_blank l && pb) eqn:B; [apply IH; exact St|].
    cbn [emit]. rewrite D. cbn [andb]. rewrite N, B.
    f_equal. apply IH; exact St.
Qed.

Lemma emit_free (ls : list str) (fm : bool) (cnt : nat) (pb : bool) :
  Forall (free_of nl) ls -> Forall (free_of nl) (emit fm cnt pb ls).
Proof.
  intros F. rewrite Forall_forall in *. intros l Hl.
  apply F. eapply emit_subset; eauto.
Qed.

Lemma emit_spaced (ls : list str) :
  forall fm cnt pb, spaced pb (emit fm cnt pb ls).
Proof.
  induction ls as [|l ls IH]; intros fm cnt pb; cbn [emit]; [exact I|].
  destruct (is_delimiter l && _) eqn:D.
  - cbn [spaced]. split; [|apply IH].
    intros _. apply delimiter_not_blank.
    apply andb_true_iff in D. tauto.
  - destruct (negb fm && is_noise l); [apply IH|].
    destruct (is_blank l && pb) eqn:B; [apply IH|].
    cbn [spaced]. split; [|apply IH].
    intros ->. rewrite andb_true_r in B. exact B.
Qed.

Lemma spaced_pairs (ls : list str) :
  forall pb i l l',
    spaced pb ls ->
    nth_error ls i = Some l -> nth_error ls (S i) = Some l' ->
    is_blank l = true -> is_blank l' = false.
Proof.
  induction ls as [|x ls IH]; intros pb i l l' S H H' B.
  - destruct i; discriminate.
  - destruct S as [_ S]. destruct i as [|i]; simpl in H, H'.
    + injection H as ->. destruct ls as [|y ls]; [discriminate|].
      injection H' as ->. destruct S as [S _]. auto.
    + eapply IH; eauto.
Qed.

Lemma emit_content (ls : list str) :
  forall fm cnt pb,
    filter content_line (emit fm cnt pb ls) = filter content_line ls.
Proof.
  induction ls as [|l ls IH]; intros fm cnt pb; cbn [emit]; [reflexivity|].
  cbn [filter].
  destruct (is_delimiter l && _) eqn:D.
  - cbn [filter]. rewrite IH. reflexivity.
  - destruct (negb fm && is_noise l) eqn:N.
    + apply andb_true_iff in N as [_ N]. unfold content_line at 2.
      rewrite N, andb_false_r. apply IH.
    + destruct (is_blank l && pb) eqn:B.
      * apply andb_true_iff in B as [B _]. unfold content_line at 2.
        rewrite B. apply IH.
      * cbn [filter]. rewrite IH. reflexivity.
Qed.

Lemma emit_delimiters (ls : list str) :
  forall fm cnt pb,
    loop_state fm cnt ->
    length (filter is_delimiter (emit fm cnt pb ls))
    = Nat.min (2 - cnt) (length (filter is_delimiter ls)).
Proof.
  induction ls as [|l ls IH]; intros fm cnt pb St; cbn [emit filter].
  - simpl. lia.
  - destruct (is_delimiter l) eqn:D.
    + destruct St as [[-> ->] | [[-> ->] | [-> Hc]]].
      * cbn [andb Nat.leb negb filter]. rewrite D. cbn [length].
        rewrite IH by (right; left; auto). lia.
      * cbn [andb Nat.leb negb filter]. rewrite D. cbn [length].
        rewrite IH by (right; right; auto). lia.
      * destruct (S cnt <=? 2) eqn:E; [apply Nat.leb_le in E; lia|].
        rewrite (delimiter_noise l D). cbn [andb negb].
        rewrite IH by (right; right; split; auto). cbn [length]. lia.
    + cbn [andb].
      destruct (negb fm && is_noise l); [apply IH; exact St|].
      destruct (is_blank l && pb); [apply IH; exact St|].
      cbn [filter]. rewrite D. apply IH; exact St.
Qed.

Lemma blank_line_kept : emit false 0 false [[]] = [[]].
Proof. reflexivity. Qed.

End NoiseProperties.

(** X1: noise removal is idempotent: a second pass over its result
    changes nothing. *)
Theorem remove_noise_idempotent (content : str) :
  remove_noise (remove_noise content) = remove_noise content.
Proof.
  unfold remove_noise. rewrite !remove_noise_lines_emit.
  destruct (emit false 0 false (split_nl content)) as [|x xs] eqn:E.
  - reflexivity.
  - rewrite split_nl_join_nl.
    + rewrite <- E, emit_idempotent; [reflexivity | left; auto].
    + discriminate.
    + rewrite <- E. apply emit_free, split_nl_free.
Qed.

(** X2: in the lines that noise removal keeps, a blank line is never
    followed by another blank line. *)
Theorem remove_noise_no_blank_run (content : str) (i : nat) (l l' : str) :
  nth_error (remove_noise_lines (split_nl content)) i = Some l ->
  nth_error (remove_noise_lines (split_nl content)) (S i) = Some l' ->
  is_blank l = true -> is_blank l' = false.
Proof.
  rewrite remove_noise_lines_emit.
  apply (spaced_pairs _ false). apply emit_spaced.
Qed.

(** X3: noise removal only deletes lines, and never a line that is
    neither blank nor a horizontal rule: such lines are kept, all of
    them and in their order, and every kept line is a line of the
    input. *)
Theorem remove_noise_keeps_content (content : str) :
  filter content_line (remove_noise_lines (split_nl content))
  = filter content_line (split_nl content) /\
  forall l, In l (remove_noise_lines (split_nl content)) ->
            In l (split_nl content).
Proof.
  rewrite remove_noise_lines_emit. split.
  - apply emit_content.
  - intros l. apply emit_subset.
Qed.

(** X4: noise removal keeps two delimiter lines at most: the number of
    kept lines whose trimmed text is [---] is the smaller of 2 and
    their number in the input. *)
Theorem remove_noise_two_delimiters (content : str) :
  length (filter is_delimiter (remove_noise_lines (split_nl content)))
  = Nat.min 2 (length (filter is_delimiter (split_nl content))).
Proof.
  rewrite remove_noise_lines_emit.
  rewrite emit_delimiters by (left; auto). reflexivity.
Qed.

(** ** Further properties of headings *)

Section HeadingProperties.

Lemma drop_while_head (p : ascii -> bool) (s : str) :
  match drop_while p s with
  | [] => True
  | c :: _ => p c = false
  end.
Proof.
  induction s as [|c s IH]; simpl; auto.
  destruct (p c) eqn:E; auto.
Qed.

Lemma drop_while_idempotent (p : ascii -> bool) (s : str) :
  drop_while p (drop_while p s) = drop_while p s.
Proof.
  assert (H := drop_while_head p s).
  destruct (drop_while p s) as [|c t]; simpl; auto. rewrite H; auto.
Qed.

Lemma drop_while_snoc (p : ascii -> bool) (a : str) (c : ascii) :
  p c = false -> drop_while p (a ++ [c]) = drop_while p a ++ [c].
Proof.
  intros H. induction a as [|x a IH]; simpl.
  - rewrite H; reflexivity.
  - destruct (p x); auto.
Qed.

Lemma rstrip_cons (c : ascii) (s : str) :
  is_space c = false -> rstrip (c :: s) = c :: rstrip s.
Proof.
  intros H. unfold rstrip. simpl.
  rewrite drop_while_snoc by exact H.
  rewrite rev_app_distr. reflexivity.
Qed.

Lemma rstrip_idempotent (s : str) : rstrip (rstrip s) = rstrip s.
Proof.
  unfold rstrip. rewrite rev_involutive, drop_while_idempotent.
  reflexivity.
Qed.

Lemma strip_idempotent (s : str) : strip (strip s) = strip s.
Proof.
  unfold strip. assert (H := drop_while_head is_space s).
  fold (lstrip s) in H. destruct (lstrip s) as [|c t].
  - reflexivity.
  - rewrite (rstrip_cons c t H). unfold lstrip at 1. simpl. rewrite H.
    rewrite (rstrip_cons c _ H), rstrip_idempotent. reflexivity.
Qed.

Lemma extract_from_sorted (ls : list str) :
  forall i,
    StronglySorted (fun a b => line a < line b) (extract_from i ls).
Proof.
  induction ls as [|l ls IH]; intros i; simpl; [constructor|].
  destruct (re_match heading_re l); [|apply IH].
  constructor; [apply IH|].
  destruct (extract_from_lines ls (S i)) as [H _].
  eapply Forall_impl; [|exact H]. simpl. intros; lia.
Qed.

(** A heading line is neither blank nor a horizontal rule. *)
Lemma heading_is_content (l : str) (m : mstate) :
  free_of nl l -> re_match heading_re l = Some m ->
  is_blank l = false /\ is_noise l = false.
Proof.
  intros Fl Hm.
  destruct (heading_match_some l m Fl Hm) as [w ((E & Hh & _) & _)].
  destruct (hashes l) as [|h]; [lia|]. simpl in E.
  assert (Hs : is_space hash = false) by reflexivity.
  split.
  - unfold is_blank, strip, lstrip. rewrite E. simpl.
    rewrite (rstrip_cons hash _ Hs). reflexivity.
  - destruct (is_noise l) eqn:N; auto.
    apply is_noise_spec in N as [a [n [b [c (E' & Hn & Pa & _ & Hc)]]]].
    rewrite E in E'. destruct a as [|x a].
    + destruct n as [|n]; [lia|]. simpl in E'. injection E' as <- _.
      destruct Hc; discriminate.
    + simpl in E', Pa. injection E' as <- _. discriminate.
Qed.

Lemma extract_emit (ls : list str) :
  forall fm cnt pb i j,
    Forall (free_of nl) ls ->
    map summary (extract_from i (emit fm cnt pb ls))
    = map summary (extract_from j ls).
Proof.
  induction ls as [|l ls IH]; intros fm cnt pb i j F; [reflexivity|].
  inversion F as [|? ? Fl Fs]; subst. cbn [emit extract_from].
  assert (Hkeep : forall fm' c' pb',
             map summary (extract_from i (l :: emit fm' c' pb' ls))
             = map summary
                 (match re_match heading_re l with
                  | Some m =>
                      Heading (length (group 1 m)) (strip (group 2 m)) j
                      :: extract_from (S j) ls
                  | None => extract_from (S j) ls
                  end)).
  { intros fm' c' pb'. cbn [extract_from].
    destruct (re_match heading_re l); cbn [map];
      rewrite (IH fm' c' pb' (S i) (S j) Fs); reflexivity. }
  assert (Hdrop : forall fm' c' pb',
             is_blank l = true \/ is_noise l = true ->
             map summary (extract_from i (emit fm' c' pb' ls))
             = map summary
                 (match re_match heading_re l with
                  | Some m =>
                      Heading (length (group 1 m)) (strip (group 2 m)) j
                      :: extract_from (S j) ls
                  | None => extract_from (S j) ls
                  end)).
  { intros fm' c' pb' H.
    destruct (re_match heading_re l) as [m|] eqn:Hm.
    - destruct (heading_is_content l m Fl Hm) as [B N].
      destruct H; congruence.
    - apply IH; exact Fs. }
  destruct (is_delimiter l && _); [apply Hkeep|].
  destruct (negb fm && is_noise l) eqn:N.
  { apply Hdrop. right. apply andb_true_iff in N. tauto. }
  destruct (is_blank l && pb) eqn:B.
  { apply Hdrop. left. apply andb_true_iff in B. tauto. }
  apply Hkeep.
Qed.

End HeadingProperties.

Lemma cleaned_summaries (ls : list str) :
  Forall (free_of nl) ls ->
  map summary (extract_from 0 (split_nl (join_nl (remove_noise_lines ls))))
  = map summary (extract_from 0 ls).
Proof.
  intros F. rewrite remove_noise_lines_emit.
  destruct (emit false 0 false ls) as [|x xs] eqn:E.
  - rewrite <- (extract_emit ls false 0 false 0 0 F), E. reflexivity.
  - rewrite split_nl_join_nl.
    + rewrite <- E. apply extract_emit, F.
    + discriminate.
    + rewrite <- E. apply emit_free, F.
Qed.

(** X5: noise removal neither drops nor alters a heading: the levels
    and texts of the headings of the cleaned text are those of the
    input, in the same order. *)
Theorem remove_noise_keeps_headings (content src : str) :
  map summary (extract_headings (init (remove_noise content) src))
  = map summary (extract_headings (init content src)).
Proof.
  unfold extract_headings, init, remove_noise. cbn [lines].
  apply cleaned_summaries. apply split_nl_free.
Qed.

(** X6: every heading record has a level between 1 and 6, a text
    without whitespace at its ends, and the index of a line of the
    document; the records come in strictly increasing line order. *)
Theorem heading_records_invariant (content src : str) :
  Forall (fun h => 1 <= level h <= 6 /\ strip (text h) = text h /\
                   line h < length (split_nl content))
         (extract_headings (init content src)) /\
  StronglySorted (fun a b => line a < line b)
                 (extract_headings (init content src)).
Proof.
  unfold extract_headings, init. cbn [lines].
  split; [|apply extract_from_sorted].
  rewrite Forall_forall. intros h Hh.
  apply extract_from_in in Hh as [j [l [m (Hl & Hm & ->)]]].
  cbn [level text line].
  split; [|split].
  - eapply heading_level_bounds; eauto.
    eapply nth_error_free; eauto.
  - apply strip_idempotent.
  - simpl. apply nth_error_Some. congruence.
Qed.

Lemma remove_noise_no_blank_run_witness :
  nth_error
    (remove_noise_lines (split_nl (join_nl [lit "a"; []; []; lit "b"]))) 1
  = Some [] /\
  nth_error
    (remove_noise_lines (split_nl (join_nl [lit "a"; []; []; lit "b"]))) 2
  = Some (lit "b") /\
  is_blank [] = true /\
  is_blank (lit "b") = false.
Proof.
  split; [reflexivity|]. split; [reflexivity|]. split; [reflexivity|].
  exact (remove_noise_no_blank_run (join_nl [lit "a"; []; []; lit "b"])
           1 [] (lit "b") eq_refl eq_refl eq_refl).
Defined.

(** ** The order of the matches *)

Section GreedyFacts.

Lemma downto_S (a : nat) :
  forall lo,
    downto (S a) lo
    = map S (downto a (pred lo)) ++ match lo with 0 => [0] | _ => [] end.
Proof.
  induction a as [|a IH]; intros lo.
  - destruct lo as [|[|lo]]; reflexivity.
  - destruct lo as [|lo].
    + change (downto (S (S a)) 0) with (S (S a) :: downto (S a) 0).
      rewrite IH. reflexivity.
    + change (downto (S (S a)) (S lo))
        with (if lo <=? S a then S (S a) :: downto (S a) (S lo) else []).
      change (downto (S a) (pred (S lo)))
        with (if lo <=? S a then S a :: downto a lo else []).
      destruct (lo <=? S a); [|reflexivity].
      rewrite IH. simpl. rewrite !app_nil_r. reflexivity.
Qed.

Lemma downto_0 (lo : nat) :
  downto 0 lo = match lo with 0 => [0] | _ => [] end.
Proof. destruct lo; reflexivity. Qed.

Lemma run_chr_cons (p : ascii -> bool) (sn : str) (c : ascii) (t : str)
    (g : list (nat * str)) :
  run (Chr p) (MState sn (c :: t) g)
  = if p c then [MState (c :: sn) t g] else [].
Proof. reflexivity. Qed.

(** The matches of a greedy repetition of a character class, in the
    order of the matcher: the longest first. *)
Lemma rep_chr_list (p : ascii -> bool) (fuel : nat) :
  forall lo hi s,
    length (rest s) <= fuel ->
    rep (run (Chr p)) fuel lo hi s
    = map (fun k => advance k s) (downto (longest p hi (rest s)) lo).
Proof.
  induction fuel as [|f IH]; intros lo hi s Hlen.
  - destruct s as [sn r g]; simpl in Hlen.
    assert (r = []) by (destruct r; simpl in *; [auto | lia]); subst r.
    assert (L : longest p hi [] = 0)
      by (destruct hi; simpl; [apply Nat.min_0_r | reflexivity]).
    cbn [rest]. rewrite L, downto_0. destruct lo; reflexivity.
  - destruct s as [sn r g]. cbn [rep rest].
    assert (Hstop : match lo with 0 => [MState sn r g] | _ => [] end
                    = map (fun k => advance k (MState sn r g))
                          match lo with 0 => [0] | _ => [] end)
      by (destruct lo; reflexivity).
    assert (Hnone : longest p hi r = 0 ->
                    match hi with
                    | Some 0 => []
                    | _ => flat_map
                             (fun s' =>
                                if length (rest s') <? length r
                                then rep (run (Chr p)) f (pred lo)
                                       (option_map pred hi) s'
                                else [])
                             (run (Chr p) (MState sn r g))
                    end = [] ->
                    match hi with
                    | Some 0 => []
                    | _ => flat_map
                             (fun s' =>
                                if length (rest s') <? length r
                                then rep (run (Chr p)) f (pred lo)
                                       (option_map pred hi) s'
                                else [])
                             (run (Chr p) (MState sn r g))
                    end ++ match lo with 0 => [MState sn r g] | _ => [] end
                    = map (fun k => advance k (MState sn r g))
                          (downto (longest p hi r) lo)).
    { intros L E. rewrite L, E, downto_0. exact Hstop. }
    destruct hi as [[|h]|].
    + apply Hnone; [apply Nat.min_0_l | reflexivity].
    + destruct r as [|c t]; [apply Hnone; [apply Nat.min_0_r|reflexivity]|].
      destruct (p c) eqn:Pc.
      * rewrite run_chr_cons, Pc.
        cbn [flat_map rest length]. rewrite app_nil_r.
        destruct (length t <? S (length t)) eqn:Lt;
          [|apply Nat.ltb_ge in Lt; lia].
        rewrite IH by (simpl in *; lia).
        assert (L : longest p (Some (S h)) (c :: t)
                    = S (longest p (Some h) t))
          by (simpl; rewrite Pc; reflexivity).
        rewrite L, downto_S, map_app, map_map, <- Hstop.
        cbn [option_map pred rest]. f_equal.
        apply map_ext. intros k. symmetry. apply advance_S.
      * apply Hnone; [simpl; rewrite Pc; reflexivity|].
        rewrite run_chr_cons, Pc. reflexivity.
    + destruct r as [|c t]; [apply Hnone; reflexivity|].
      destruct (p c) eqn:Pc.
      * rewrite run_chr_cons, Pc.
        cbn [flat_map rest length]. rewrite app_nil_r.
        destruct (length t <? S (length t)) eqn:Lt;
          [|apply Nat.ltb_ge in Lt; lia].
        rewrite IH by (simpl in *; lia).
        assert (L : longest p None (c :: t) = S (longest p None t))
          by (simpl; rewrite Pc; reflexivity).
        rewrite L, downto_S, map_app, map_map, <- Hstop.
        cbn [option_map rest]. f_equal.
        apply map_ext. intros k. symmetry. apply advance_S.
      * apply Hnone; [simpl; rewrite Pc; reflexivity|].
        rewrite run_chr_cons, Pc. reflexivity.
Qed.

Lemma run_rep_list (p : ascii -> bool) (lo : nat) (hi : option nat)
    (s : mstate) :
  run (Rep (Chr p) lo hi) s
  = map (fun k => advance k s) (downto (longest p hi (rest s)) lo).
Proof.
  change (run (Rep (Chr p) lo hi) s)
    with (rep (run (Chr p)) (length (rest s)) lo hi s).
  apply rep_chr_list. lia.
Qed.

Lemma hd_error_app {A : Type} (a b : list A) :
  hd_error (a ++ b)
  = match hd_error a with Some x => Some x | None => hd_error b end.
Proof. destruct a; reflexivity. Qed.

Lemma hd_flat_map {A B : Type} (f : A -> list B) (h : nat -> A)
    (ks : list nat) :
  hd_error (flat_map f (map h ks))
  = first_some (fun k => hd_error (f (h k))) ks.
Proof.
  induction ks as [|k ks IH]; simpl; auto.
  rewrite hd_error_app, IH. reflexivity.
Qed.

Lemma first_some_in {A : Type} (g : nat -> option A) (ks : list nat)
    (a : A) :
  first_some g ks = Some a -> exists k, In k ks /\ g k = Some a.
Proof.
  induction ks as [|k ks IH]; simpl; [discriminate|].
  destruct (g k) eqn:E.
  - intros [= ->]. eauto.
  - intros H. destruct (IH H) as [k' [H1 H2]]. eauto.
Qed.

Lemma downto_in (a lo k : nat) : In k (downto a lo) -> lo <= k <= a.
Proof.
  induction a as [|a IH]; simpl.
  - destruct (lo =? 0) eqn:E; [|intros []].
    apply Nat.eqb_eq in E. intros [<- | []]. lia.
  - destruct (lo <=? S a) eqn:E; [|intros []].
    apply Nat.leb_le in E. intros [<- | H]; [lia|].
    specialize (IH H). lia.
Qed.

End GreedyFacts.

Section CaptureFacts.

Lemma run_cat_eq (r1 r2 : regex) (s : mstate) :
  run (Cat r1 r2) s = flat_map (run r2) (run r1 s).
Proof. reflexivity. Qed.

Lemma run_grp_eq (i : nat) (r : regex) (s : mstate) :
  run (Grp i r) s = map (close_group i s) (run r s).
Proof. reflexivity. Qed.

Lemma close_group_advance (i k : nat) (s : mstate) :
  k <= length (rest s) ->
  close_group i s (advance k s)
  = MState (rev (firstn k (rest s)) ++ seen s) (skipn k (rest s))
           ((i, firstn k (rest s)) :: groups s).
Proof.
  intros H. unfold close_group, consumed, advance. cbn [rest seen groups].
  rewrite length_skipn.
  replace (length (rest s) - (length (rest s) - k)) with k by lia.
  reflexivity.
Qed.

Lemma take_while_forallb (p : ascii -> bool) (l : str) :
  forallb p l = true -> take_while p l = l.
Proof.
  induction l as [|c l IH]; simpl; auto.
  intros H. apply andb_true_iff in H as [Hc Hl].
  rewrite Hc, IH; auto.
Qed.

Lemma skipn_take_while (p : ascii -> bool) (l : str) :
  skipn (length (take_while p l)) l = drop_while p l.
Proof.
  induction l as [|c l IH]; simpl; auto.
  destruct (p c); simpl; auto.
Qed.

Lemma take_while_length (p : ascii -> bool) (l : str) :
  length (take_while p l) <= length l.
Proof.
  induction l as [|c l IH]; simpl; auto.
  destruct (p c); simpl; lia.
Qed.

Lemma skipn_last (l : str) (d : ascii) :
  l <> [] -> skipn (length l - 1) l = [last l d].
Proof.
  induction l as [|c l IH]; [congruence|]. intros _.
  destruct l as [|c' l]; [reflexivity|].
  assert (H : skipn (length (c' :: l) - 1) (c' :: l) = [last (c' :: l) d])
    by (apply IH; discriminate).
  cbn [length] in *.
  replace (S (length l) - 1) with (length l) in H by lia.
  replace (S (S (length l)) - 1) with (S (length l)) by lia.
  exact H.
Qed.

Lemma skipn_inside_hashes (l : str) (k : nat) :
  k < hashes l -> exists t, skipn k l = hash :: t.
Proof.
  unfold hashes. revert k. induction l as [|c l IH]; simpl; intros k H.
  - lia.
  - destruct (chr_is hash c) eqn:E; simpl in H; [|lia].
    apply eqc_eq in E; subst c.
    destruct k as [|k]; simpl; [eauto|]. apply IH. lia.
Qed.

(** The pattern of the text and of the end of the line: [(.+)$]. *)
Lemma run_text_hd (s : mstate) :
  free_of nl (rest s) ->
  hd_error (run (Cat (Grp 2 (plus_of (Chr any_char))) Eol) s)
  = match rest s with
    | [] => None
    | _ => Some (MState (rev (rest s) ++ seen s) []
                        ((2, rest s) :: groups s))
    end.
Proof.
  intros F. unfold plus_of.
  rewrite run_cat_eq, run_grp_eq, run_rep_list, map_map, hd_flat_map.
  assert (L : longest any_char None (rest s) = length (rest s)).
  { unfold longest. rewrite take_while_forallb; [reflexivity | exact F]. }
  rewrite L. destruct (rest s) as [|c t] eqn:R; [reflexivity|].
  change (downto (length (c :: t)) 1)
    with (length (c :: t) :: downto (length t) 1).
  cbn [first_some].
  rewrite close_group_advance by (rewrite R; lia).
  rewrite R, firstn_all, skipn_all. reflexivity.
Qed.

(** What the heading pattern captures as the text: the matcher first
    gives all the whitespace to [\s+] and gives one character back when
    nothing is left for [.+]. *)
Lemma heading_capture (l : str) (m : mstate) :
  free_of nl l -> re_match heading_re l = Some m ->
  group 2 m = capture l.
Proof.
  intros Fl Hm. unfold re_match, heading_re in Hm.
  rewrite run_cat_eq in Hm.
  change (run Bol (start l)) with [start l] in Hm.
  cbn [flat_map] in Hm. rewrite app_nil_r in Hm.
  rewrite run_cat_eq, run_grp_eq, run_rep_list, map_map, hd_flat_map in Hm.
  apply first_some_in in Hm as [k [Hk Hm]].
  apply downto_in in Hk. cbn [rest start] in Hk.
  assert (Hk6 : k <= hashes l).
  { unfold longest in Hk. fold (hashes l) in Hk. lia. }
  assert (Hkl : k <= length l).
  { unfold hashes in Hk6.
    assert (H := take_while_length (chr_is hash) l). lia. }
  rewrite close_group_advance in Hm by exact Hkl.
  cbn [rest start seen groups] in Hm. unfold plus_of in Hm.
  rewrite run_cat_eq, run_rep_list, hd_flat_map in Hm.
  cbn [rest] in Hm.
  destruct (Nat.eq_dec k (hashes l)) as [->|Hne].
  2:{ destruct (skipn_inside_hashes l k) as [t Et]; [lia|].
      rewrite Et in Hm. simpl in Hm. discriminate. }
  assert (Es : skipn (hashes l) l = after_hashes l)
    by apply skipn_take_while.
  rewrite !Es in Hm.
  assert (Fr : free_of nl (after_hashes l)).
  { unfold after_hashes. rewrite <- (take_drop_while (chr_is hash) l) in Fl.
    apply free_of_app in Fl. tauto. }
  set (r := after_hashes l) in *.
  assert (Hg : forall j,
             hd_error
               (run (Cat (Grp 2 (Rep (Chr any_char) 1 None)) Eol)
                  (advance j
                     (MState (rev (firstn (hashes l) l) ++ []) r
                             [(1, firstn (hashes l) l)])))
             = match skipn j r with
               | [] => None
               | x => Some (MState (rev x ++ rev (firstn j r)
                                    ++ rev (firstn (hashes l) l) ++ [])
                                   [] [(2, x); (1, firstn (hashes l) l)])
               end).
  { intros j. rewrite (run_text_hd (advance j _)).
    - cbn [rest advance seen groups]. destruct (skipn j r); reflexivity.
    - cbn [rest advance]. rewrite <- (firstn_skipn j r) in Fr.
      apply free_of_app in Fr. tauto. }
  unfold longest in Hm.
  assert (Et : skipn (length (take_while is_space r)) r = lstrip r)
    by apply skipn_take_while.
  unfold capture. fold r.
  destruct (take_while is_space r) as [|c w] eqn:W;
    [simpl in Hm; discriminate|].
  change (downto (length (c :: w)) 1)
    with (length (c :: w) :: downto (length w) 1) in Hm.
  cbn [first_some] in Hm. rewrite Hg, Et in Hm.
  destruct (lstrip r) as [|x t] eqn:T.
  - assert (Er : r = c :: w).
    { rewrite <- (take_drop_while is_space r). fold (lstrip r).
      rewrite W, T, app_nil_r. reflexivity. }
    destruct w as [|c' w]; [simpl in Hm; discriminate|].
    change (downto (length (c' :: w)) 1)
      with (length (c' :: w) :: downto (length w) 1) in Hm.
    cbn [first_some] in Hm. rewrite Hg in Hm.
    assert (El : skipn (length (c' :: w)) r = [last r space]).
    { rewrite <- (skipn_last r space) by (rewrite Er; discriminate).
      rewrite Er. cbn [length]. f_equal. }
    rewrite El in Hm. injection Hm as <-. reflexivity.
  - injection Hm as <-. reflexivity.
Qed.

End CaptureFacts.

Section RewriteFacts.

Lemma clamp_idempotent (e r : nat) : clamp e (clamp e r) = clamp e r.
Proof.
  unfold clamp. destruct (e + 1 <? r) eqn:E.
  - rewrite Nat.ltb_irrefl. reflexivity.
  - rewrite E. reflexivity.
Qed.

Lemma drop_while_nil (p : ascii -> bool) (r : str) :
  drop_while p r = [] -> forallb p r = true.
Proof.
  induction r as [|c r IH]; simpl; auto.
  destruct (p c); [auto | discriminate].
Qed.

Lemma last_forallb (p : ascii -> bool) (r : str) (d : ascii) :
  forallb p r = true -> p d = true -> p (last r d) = true.
Proof.
  induction r as [|c r IH]; simpl; auto.
  intros H Hd. apply andb_true_iff in H as [Hc Hr].
  destruct r as [|c' r]; auto.
Qed.

Lemma after_hashes_rewritten (n : nat) (g : str) :
  after_hashes (repeat hash n ++ [space] ++ g) = space :: g.
Proof.
  unfold after_hashes. rewrite drop_while_app by apply forallb_repeat.
  reflexivity.
Qed.

(** The text captured in a rewritten heading line is the text that was
    written into it. *)
Lemma capture_rewritten (n : nat) (l : str) :
  capture (repeat hash n ++ [space] ++ capture l) = capture l.
Proof.
  unfold capture at 1. rewrite after_hashes_rewritten.
  change (lstrip (space :: capture l)) with (lstrip (capture l)).
  unfold capture. destruct (lstrip (after_hashes l)) as [|x t] eqn:T.
  - assert (S : is_space (last (after_hashes l) space) = true)
      by (apply last_forallb; [apply drop_while_nil; exact T|reflexivity]).
    unfold lstrip at 1. simpl. rewrite S. reflexivity.
  - assert (I : lstrip (x :: t) = x :: t)
      by (rewrite <- T; apply drop_while_idempotent).
    rewrite I. reflexivity.
Qed.

Lemma normalize_lines_capture (ls : list str) :
  forall e i l,
    Forall (free_of nl) ls -> nth_error ls i = Some l ->
    forall m, re_match heading_re l = Some m ->
      exists n, 1 <= n <= hashes l /\
                nth_error (normalize_lines e ls) i
                = Some (repeat hash n ++ [space] ++ capture l).
Proof.
  intros e i l F Hl m Hm.
  assert (Fl : free_of nl l)
    by (exact (proj1 (Forall_forall _ _) F l (nth_error_In _ _ Hl))).
  assert (H := normalize_lines_nth ls e i l F Hl). rewrite Hm in H.
  destruct H as [n [Hn H]]. exists n.
  destruct (heading_match_some l m Fl Hm) as [_ (_ & G1 & _)].
  rewrite (heading_capture l m Fl Hm) in H. rewrite G1 in Hn. auto.
Qed.

Lemma normalize_lines_idempotent (ls : list str) :
  forall e,
    Forall (free_of nl) ls ->
    normalize_lines e (normalize_lines e ls) = normalize_lines e ls.
Proof.
  induction ls as [|l ls IH]; intros e F; [reflexivity|].
  inversion F as [|? ? Fl Fs]; subst. cbn [normalize_lines].
  destruct (re_match heading_re l) as [m|] eqn:Hm.
  - cbv zeta. cbn [normalize_lines].
    assert (B := heading_level_bounds l m Fl Hm).
    set (n := clamp e (length (group 1 m))).
    assert (Hn : 1 <= n <= 6)
      by (unfold n; destruct (clamp_bounds e (length (group 1 m))); lia).
    destruct (rewritten_heading l m n Fl Hm Hn)
      as [Fl' [m' (Hm' & G1 & _)]].
    rewrite Hm'. cbv zeta. rewrite G1.
    assert (G2 : group 2 m' = group 2 m).
    { rewrite (heading_capture _ m' Fl' Hm'),
        (heading_capture l m Fl Hm).
      apply capture_rewritten. }
    rewrite G2. subst n. rewrite clamp_idempotent.
    rewrite IH by exact Fs. reflexivity.
  - cbn [normalize_lines]. rewrite Hm, IH by exact Fs. reflexivity.
Qed.

End RewriteFacts.

(** C2, counterexample: the heading [#  Title], with two blanks after
    the [#], is rewritten to [# Title]; more than the run of [#] has
    changed. *)
Lemma normalize_rewrites_separator :
  ~ only_hash_run_changes (lit "#  Title") [].
Proof.
  intros [out (Hout & _ & _ & H)].
  vm_compute in Hout. injection Hout as <-.
  destruct (H 0 _ _ eq_refl eq_refl) as [H0 _].
  vm_compute in H0. discriminate.
Qed.

(** C2, amended: the normalization keeps the sequence of heading texts
    and the number of lines, leaves every line that is not a heading
    unchanged, and rewrites a heading line to the new run of [#] (no
    longer than the old one), one blank, and the captured text of the
    line: what follows the [#] without its leading whitespace (or the
    last whitespace character when only whitespace follows).  So the
    whitespace between the [#] and the text is replaced by a single
    blank. *)
Theorem normalize_preserves_texts (content src : str) :
  exists out,
    normalize_heading_hierarchy (init content src) = Some out /\
    map text (extract_headings (init out src))
    = map text (extract_headings (init content src)) /\
    length (split_nl out) = length (split_nl content) /\
    forall i l,
      nth_error (split_nl content) i = Some l ->
      ((forall h w t, ~ heading_shape l h w t) ->
       nth_error (split_nl out) i = Some l) /\
      (forall h w t,
          heading_shape l h w t ->
          exists n, 1 <= n <= h /\
            nth_error (split_nl out) i
            = Some (repeat hash n ++ [space] ++ capture l)).
Proof.
  eexists. split; [apply normalize_spec|].
  rewrite headings_of_normalized, relevel_texts.
  rewrite normalize_split, normalize_lines_length.
  split; [reflexivity|]. split; [reflexivity|].
  intros i l Hl.
  assert (Fl := nth_error_free content i l Hl).
  split.
  - intros Hno.
    assert (Hn := normalize_lines_nth (split_nl content) 1 i l
                    (split_nl_free content) Hl).
    destruct (re_match heading_re l) as [m|] eqn:Hm; auto.
    destruct (heading_match_some l m Fl Hm) as [w (Hs & _)].
    exfalso. exact (Hno _ _ _ Hs).
  - intros h w t Hs.
    destruct (heading_match_shape l h w t Fl Hs) as [m Hm].
    destruct (shape_hashes _ _ _ _ Hs) as [<- _].
    exact (normalize_lines_capture (split_nl content) 1 i l
             (split_nl_free content) Hl m Hm).
Qed.

(** X7: the hierarchy normalization rewrites a heading line to the new
    run of [#], one blank and the captured text: the rest of the line
    after the [#] without its leading whitespace (trailing whitespace
    stays), or the last whitespace character when nothing else follows
    the [#]. *)
Theorem normalize_rewrites_heading_line (content src : str) :
  exists out,
    normalize_heading_hierarchy (init content src) = Some out /\
    forall i l h w t,
      nth_error (split_nl content) i = Some l ->
      heading_shape l h w t ->
      exists n, 1 <= n <= h /\
                nth_error (split_nl out) i
                = Some (repeat hash n ++ [space] ++ capture l).
Proof.
  eexists. split; [apply normalize_spec|].
  rewrite normalize_split. intros i l h w t Hl Hs.
  assert (Fl := nth_error_free content i l Hl).
  destruct (heading_match_shape l h w t Fl Hs) as [m Hm].
  destruct (shape_hashes _ _ _ _ Hs) as [<- _].
  exact (normalize_lines_capture (split_nl content) 1 i l
           (split_nl_free content) Hl m Hm).
Qed.

(** X8: the hierarchy normalization is idempotent: run on its own
    result, it returns that result. *)
Theorem normalize_idempotent (content src src' : str) :
  exists out,
    normalize_heading_hierarchy (init content src) = Some out /\
    normalize_heading_hierarchy (init out src') = Some out.
Proof.
  eexists. split; [apply normalize_spec|].
  rewrite normalize_spec, normalize_split.
  rewrite normalize_lines_idempotent by apply split_nl_free.
  reflexivity.
Qed.

(** ** Further properties of the classifier and of the front-matter *)

Section SectionFacts.

Lemma next_heading_skip (pre : list heading) (hs : list heading)
    (start : nat) :
  Forall (fun x => line x <= start) pre ->
  next_heading (pre ++ hs) start = next_heading hs start.
Proof.
  induction pre as [|x pre IH]; intros F; [reflexivity|].
  inversion F as [|? ? Hx Hp]; subst. simpl.
  destruct (start <? line x) eqn:E; [apply Nat.ltb_lt in E; lia|].
  apply IH; exact Hp.
Qed.

Lemma sorted_before (pre : list heading) (h : heading)
    (post : list heading) :
  StronglySorted (fun a b => line a < line b) (pre ++ h :: post) ->
  Forall (fun x => line x <= line h) (pre ++ [h]) /\
  Forall (fun x => line h < line x) post.
Proof.
  intros S. destruct (StronglySorted_app _ _ _ S) as [_ H]. split.
  - apply Forall_app; split; [|repeat constructor].
    rewrite Forall_forall. intros x Hx.
    specialize (H x h Hx (or_introl eq_refl)). lia.
  - clear H. induction pre as [|y pre IH]; simpl in S.
    + inversion S; subst. assumption.
    + inversion S; subst. auto.
Qed.

End SectionFacts.

(** X9: the section of a heading runs from its line to the line of the
    next heading, and the section of the last heading runs to the end of
    the document. *)
Theorem section_bounds (self : optimizer) :
  (forall pre h h' post,
      extract_headings self = pre ++ h :: h' :: post ->
      section_text_of self (extract_headings self) h
      = lower (join_nl (slice (lines self) (line h) (line h')))) /\
  (forall pre h,
      extract_headings self = pre ++ [h] ->
      section_text_of self (extract_headings self) h
      = lower (join_nl (skipn (line h) (lines self)))).
Proof.
  assert (S : StronglySorted (fun a b => line a < line b)
                (extract_headings self)) by apply extract_from_sorted.
  split.
  - intros pre h h' post E. rewrite E in *. unfold section_text_of.
    destruct (sorted_before pre h (h' :: post) S) as [Hpre Hpost].
    change (pre ++ h :: h' :: post) with (pre ++ [h] ++ h' :: post).
    rewrite app_assoc, next_heading_skip by exact Hpre.
    inversion Hpost as [|? ? Hlt _]; subst. simpl.
    destruct (line h <? line h') eqn:L; [|apply Nat.ltb_ge in L; lia].
    destruct (line h') as [|n]; [lia|]. reflexivity.
  - intros pre h E. rewrite E in *. unfold section_text_of.
    destruct (sorted_before pre h [] S) as [Hpre _].
    rewrite <- (app_nil_r (pre ++ [h])).
    rewrite next_heading_skip by exact Hpre. simpl.
    unfold slice. rewrite firstn_all2; [reflexivity|].
    rewrite length_skipn. lia.
Qed.

Section FieldFacts.

Lemma toc_lines_in (toc : list toc_entry) (x : str) :
  In x (toc_lines toc) ->
  x = lit "toc:" \/ exists y, x = space :: y \/ x = dash :: y.
Proof.
  unfold toc_lines. destruct toc as [|e toc]; [intros []|].
  intros [<- | H]; auto. right.
  apply in_map_iff in H as [item [<- _]].
  destruct (toc_level item - 1) as [|k]; simpl; eauto.
Qed.

Lemma diagram_lines_in (ds : list opportunity) (x : str) :
  In x (diagram_lines ds) ->
  x = lit "suggested_diagrams:" \/
  (exists y, x = lit "  - " ++ y) \/ (exists y, x = lit "    t" ++ y).
Proof.
  unfold diagram_lines. destruct ds as [|d ds]; [intros []|].
  intros [<- | H]; auto. right.
  apply in_flat_map in H as [o [_ [<- | [<- | []]]]].
  - left. eexists. reflexivity.
  - right. eexists. reflexivity.
Qed.

Lemma concept_lines_nil (cs : list str) :
  concept_lines cs = [] <-> cs = [].
Proof. destruct cs; simpl; split; congruence. Qed.

Lemma toc_lines_nil (toc : list toc_entry) : toc_lines toc = [] <-> toc = [].
Proof. destruct toc; simpl; split; congruence. Qed.

Lemma diagram_lines_nil (ds : list opportunity) :
  diagram_lines ds = [] <-> ds = [].
Proof. destruct ds; simpl; split; congruence. Qed.

Lemma frontmatter_lines_interior (self : optimizer) :
  frontmatter_lines self
  = lit "---" :: frontmatter_interior self ++ [lit "---"].
Proof.
  unfold frontmatter_lines, frontmatter_interior.
  cbn [app]. rewrite <- !app_assoc. reflexivity.
Qed.

(** Where a line of the generated front-matter comes from. *)
Lemma frontmatter_lines_in (self : optimizer) (x : str) :
  In x (frontmatter_lines self) <->
  x = lit "---" \/
  x = title_line (title_of self (extract_headings self)) \/
  x = lit "tokens: " ++ of_nat (estimate_tokens (original_content self)) \/
  x = lit "optimized_for_llm: true" \/
  In x (concept_lines (extract_key_concepts self)) \/
  In x (toc_lines (generate_toc self)) \/
  In x (diagram_lines (identify_diagram_opportunities self)).
Proof.
  rewrite frontmatter_lines_interior. unfold frontmatter_interior.
  cbn [In app]. rewrite !in_app_iff. cbn [In]. intuition congruence.
Qed.

End FieldFacts.

(** X10: the fields [concepts], [toc] and [suggested_diagrams] of the
    generated front-matter are present exactly when the list of
    concepts, of headings, of diagram opportunities is not empty. *)
Theorem frontmatter_fields (self : optimizer) :
  (In (lit "concepts:") (frontmatter_lines self) <->
   extract_key_concepts self <> []) /\
  (In (lit "toc:") (frontmatter_lines self) <->
   extract_headings self <> []) /\
  (In (lit "suggested_diagrams:") (frontmatter_lines self) <->
   identify_diagram_opportunities self <> []).
Proof.
  assert (Htoc : generate_toc self = [] <-> extract_headings self = []).
  { unfold generate_toc. destruct (extract_headings self); simpl;
      split; congruence. }
  repeat split.
  - intros H. apply frontmatter_lines_in in H.
    destruct H as [H | [H | [H | [H | [H | [H | H]]]]]];
      try discriminate.
    + intros E. rewrite E in H. destruct H.
    + apply toc_lines_in in H as [H | [y [H | H]]]; discriminate.
    + apply diagram_lines_in in H as [H | [[y H] | [y H]]]; discriminate.
  - intros H. apply frontmatter_lines_in. do 4 right. left.
    destruct (extract_key_concepts self); [congruence|]. left. reflexivity.
  - intros H. apply frontmatter_lines_in in H.
    destruct H as [H | [H | [H | [H | [H | [H | H]]]]]];
      try discriminate.
    + apply concept_lines_in in H as [H | [c H]]; discriminate.
    + intros E. apply Htoc in E. rewrite E in H. destruct H.
    + apply diagram_lines_in in H as [H | [[y H] | [y H]]]; discriminate.
  - intros H. apply frontmatter_lines_in. do 5 right. left.
    destruct (generate_toc self) eqn:E; [|left; reflexivity].
    exfalso. apply H, Htoc. reflexivity.
  - intros H. apply frontmatter_lines_in in H.
    destruct H as [H | [H | [H | [H | [H | [H | H]]]]]];
      try discriminate.
    + apply concept_lines_in in H as [H | [c H]]; discriminate.
    + apply toc_lines_in in H as [H | [y [H | H]]]; discriminate.
    + intros E. rewrite E in H. destruct H.
  - intros H. apply frontmatter_lines_in. do 6 right.
    destruct (identify_diagram_opportunities self); [congruence|].
    left. reflexivity.
Qed.

Section BlockFacts.

Lemma rstrip_prefix (s : str) : exists b, s = rstrip s ++ b.
Proof.
  exists (rev (take_while is_space (rev s))). unfold rstrip.
  rewrite <- rev_app_distr, take_drop_while, rev_involutive. reflexivity.
Qed.

Lemma strip_lead (a : str) (c : ascii) (x : str) :
  forallb is_space a = true -> is_space c = false ->
  strip (a ++ c :: x) = c :: rstrip x.
Proof.
  intros Ha Hc. unfold strip. rewrite lstrip_app_space by exact Ha.
  unfold lstrip. simpl. rewrite Hc. apply rstrip_cons. exact Hc.
Qed.

(** A line whose first character after leading whitespace is neither
    whitespace nor a dash. *)
Lemma plain_word (a : str) (c : ascii) (x : str) :
  forallb is_space a = true -> is_space c = false -> eqc c dash = false ->
  plain_line (a ++ c :: x).
Proof.
  intros Ha Hc Hd. unfold plain_line, is_delimiter, is_blank.
  rewrite (strip_lead a c x Ha Hc). split; [|reflexivity].
  change (eqc c dash && eqs (rstrip x) (lit "--") = false).
  rewrite Hd. reflexivity.
Qed.

(** A list item: leading whitespace, a dash, a blank. *)
Lemma plain_item (a x : str) :
  forallb is_space a = true -> plain_line (a ++ dash :: space :: x).
Proof.
  intros Ha. unfold plain_line, is_delimiter, is_blank.
  rewrite (strip_lead a dash (space :: x) Ha eq_refl).
  destruct (rstrip_prefix (space :: x)) as [b E].
  destruct (rstrip (space :: x)) as [|c y]; [auto|].
  injection E as <- _. auto.
Qed.

Lemma indent_spaces (k : nat) :
  forallb is_space (concat (repeat (lit "  ") k)) = true.
Proof. induction k; simpl; auto. Qed.

Lemma interior_plain (self : optimizer) :
  Forall plain_line (frontmatter_interior self).
Proof.
  unfold frontmatter_interior. rewrite !Forall_app.
  split; [|split; [|split]].
  - constructor; [|constructor; [|constructor; [|constructor]]].
    + exact (plain_word [] "t"%char
               (lit "itle: " ++ [quote]
                ++ title_of self (extract_headings self) ++ [quote])
               eq_refl eq_refl eq_refl).
    + exact (plain_word [] "t"%char
               (lit "okens: "
                ++ of_nat (estimate_tokens (original_content self)))
               eq_refl eq_refl eq_refl).
    + exact (plain_word [] "o"%char (lit "ptimized_for_llm: true")
               eq_refl eq_refl eq_refl).
  - rewrite Forall_forall. intros x H.
    apply concept_lines_in in H as [-> | [c ->]].
    + exact (plain_word [] "c"%char (lit "oncepts:")
               eq_refl eq_refl eq_refl).
    + exact (plain_item (lit "  ") c eq_refl).
  - rewrite Forall_forall. intros x H. unfold toc_lines in H.
    destruct (generate_toc self) as [|e toc]; [destruct H|].
    destruct H as [<- | H].
    + exact (plain_word [] "t"%char (lit "oc:") eq_refl eq_refl eq_refl).
    + apply in_map_iff in H as [item [<- _]].
      exact (plain_item _ (toc_text item) (indent_spaces _)).
  - rewrite Forall_forall. intros x H. unfold diagram_lines in H.
    destruct (identify_diagram_opportunities self) as [|d ds];
      [destruct H|].
    destruct H as [<- | H].
    + exact (plain_word [] "s"%char (lit "uggested_diagrams:")
               eq_refl eq_refl eq_refl).
    + apply in_flat_map in H as [o [_ [<- | [<- | []]]]].
      * exact (plain_item (lit "  ")
                 (lit "section: " ++ [quote] ++ opp_heading o ++ [quote])
                 eq_refl).
      * exact (plain_word (lit "    ") "t"%char
                 (lit "ype: " ++ diagram_name (opp_type o))
                 eq_refl eq_refl eq_refl).
Qed.

Lemma squeeze_plain (ls : list str) :
  forall pb, Forall plain_line ls -> squeeze pb ls = ls.
Proof.
  induction ls as [|l ls IH]; intros pb F; [reflexivity|].
  inversion F as [|? ? [_ B] Fs]; subst. simpl.
  rewrite B. simpl. rewrite IH; auto.
Qed.

End BlockFacts.

(** X11: a generated front-matter block that is fed back to noise
    removal, followed by any lines, is kept whole: its two delimiter
    lines are the two that the loop exempts, no line between them is
    dropped, and what is kept after the block are lines of the rest
    that are no horizontal rules. *)
Theorem generated_block_survives (self : optimizer) (rest_lines : list str) :
  exists tail,
    remove_noise_lines (frontmatter_lines self ++ rest_lines)
    = frontmatter_lines self ++ tail /\
    Forall (fun l => is_noise l = false /\ In l rest_lines) tail.
Proof.
  exists (emit false 2 false rest_lines).
  split; [|apply emit_outside; right; lia].
  assert (P := interior_plain self).
  assert (D : no_delimiter (frontmatter_interior self)).
  { eapply Forall_impl; [|exact P]. intros l [H _]. exact H. }
  rewrite frontmatter_lines_interior, remove_noise_lines_emit.
  cbn [app]. rewrite <- app_assoc. cbn [app].
  assert (H0 := emit_until_delimiter [] false 0 false (lit "---")
                  (frontmatter_interior self ++ lit "---" :: rest_lines)
                  (Forall_nil _) eq_refl Nat.lt_0_2).
  change ([] ++ lit "---"
          :: frontmatter_interior self ++ lit "---" :: rest_lines)
    with (lit "---"
          :: frontmatter_interior self ++ lit "---" :: rest_lines) in H0.
  rewrite H0. cbn [emit app negb].
  rewrite emit_until_delimiter by (auto; lia).
  rewrite emit_frontmatter by exact D.
  rewrite squeeze_plain by exact P.
  cbn [negb]. rewrite <- app_assoc. reflexivity.
Qed.

(** X12: the pipeline never raises: for every text and source path
    [optimize] returns the generated front-matter of the final body, an
    empty line and that body; the result begins with the delimiter line
    and the title line. *)
Theorem optimize_returns (content src : str) :
  exists body,
    body_of (init content src) = Some body /\
    optimize (init content src)
    = Some (generate_frontmatter (init body src) ++ [nl; nl] ++ body) /\
    startswith (lit "---" ++ [nl] ++ lit "title: ")
               (generate_frontmatter (init body src) ++ [nl; nl] ++ body)
    = true.
Proof.
  eexists. split; [|split].
  - unfold body_of. rewrite normalize_spec. reflexivity.
  - unfold optimize, body_of. rewrite normalize_spec. reflexivity.
  - reflexivity.
Qed.

Section LevelFacts.

Lemma clamp_min (e r : nat) : clamp e r = Nat.min r (e + 1).
Proof.
  unfold clamp. destruct (e + 1 <? r) eqn:E.
  - apply Nat.ltb_lt in E. lia.
  - apply Nat.ltb_ge in E. lia.
Qed.

Lemma relevel_levels (hs : list heading) :
  forall e,
    length (relevel e hs) = length hs /\
    (forall a, nth_error (map level hs) 0 = Some a ->
               nth_error (map level (relevel e hs)) 0
               = Some (Nat.min a (e + 1))) /\
    (forall i a b,
        nth_error (map level (relevel e hs)) i = Some b ->
        nth_error (map level hs) (S i) = Some a ->
        nth_error (map level (relevel e hs)) (S i)
        = Some (Nat.min a (b + 1))).
Proof.
  induction hs as [|h hs IH]; intros e; simpl.
  - repeat split; intros; discriminate.
  - destruct (IH (clamp e (level h))) as (L & H0 & HS).
    split; [rewrite L; reflexivity|]. split.
    + intros a [= <-]. rewrite clamp_min. reflexivity.
    + intros [|i] a b; simpl.
      * intros [= <-]. apply H0.
      * apply HS.
Qed.

End LevelFacts.

(** X13: the levels of the normalized headings follow the recurrence of
    the loop: the first is the smaller of its raw level and 2, every
    later one the smaller of its raw level and the level before it
    plus one. *)
Theorem normalized_levels (content src : str) :
  exists out,
    normalize_heading_hierarchy (init content src) = Some out /\
    let raw := map level (extract_headings (init content src)) in
    let new := map level (extract_headings (init out src)) in
    length new = length raw /\
    (forall a, nth_error raw 0 = Some a ->
               nth_error new 0 = Some (Nat.min a 2)) /\
    (forall i a b,
        nth_error new i = Some b -> nth_error raw (S i) = Some a ->
        nth_error new (S i) = Some (Nat.min a (b + 1))).
Proof.
  eexists. split; [apply normalize_spec|].
  rewrite headings_of_normalized. cbv zeta.
  destruct (relevel_levels (extract_headings (init content src)) 1)
    as (L & H0 & HS).
  rewrite !length_map. auto.
Qed.

Section StripFacts.

Lemma join_snoc (sep : str) (ls : list str) (x : str) :
  ls <> [] -> join sep (ls ++ [x]) = join sep ls ++ sep ++ x.
Proof.
  induction ls as [|l ls IH]; [congruence|]. intros _.
  destruct ls as [|l' ls]; [reflexivity|].
  change (join sep ((l :: l' :: ls) ++ [x]))
    with (l ++ sep ++ join sep ((l' :: ls) ++ [x])).
  rewrite IH by discriminate.
  change (join sep (l :: l' :: ls)) with (l ++ sep ++ join sep (l' :: ls)).
  rewrite <- !app_assoc. reflexivity.
Qed.

(** The first [---] of a text that has none before a line break is the
    one after the line break. *)
Lemma partition_at_line (a y : str) :
  contains (lit "---") a = false ->
  partition_at (lit "---") (a ++ nl :: lit "---" ++ y)
  = Some (a ++ [nl], y).
Proof.
  induction a as [|c a IH]; intros H.
  - reflexivity.
  - simpl in H. apply orb_false_iff in H as [H1 H2].
    assert (S : startswith (lit "---") ((c :: a) ++ nl :: lit "---" ++ y)
                = false).
    { destruct (startswith (lit "---")
                  ((c :: a) ++ nl :: lit "---" ++ y)) eqn:S; auto.
      apply startswith_spec in S as [b E]. exfalso.
      destruct a as [|c2 [|c3 a]]; simpl in E.
      - injection E as _ E _. discriminate.
      - injection E as _ _ E _. discriminate.
      - injection E as -> -> -> _. simpl in H1. discriminate. }
    change (partition_at (lit "---") ((c :: a) ++ nl :: lit "---" ++ y))
      with (if startswith (lit "---") ((c :: a) ++ nl :: lit "---" ++ y)
            then Some ([], skipn 3 ((c :: a) ++ nl :: lit "---" ++ y))
            else match partition_at (lit "---")
                         (a ++ nl :: lit "---" ++ y) with
                 | Some (u, v) => Some (c :: u, v)
                 | None => None
                 end).
    rewrite S, (IH H2). reflexivity.
Qed.

Lemma interior_nonempty (self : optimizer) : frontmatter_interior self <> [].
Proof. unfold frontmatter_interior. discriminate. Qed.

Lemma generate_frontmatter_shape (self : optimizer) :
  generate_frontmatter self
  = lit "---" ++ nl :: join_nl (frontmatter_interior self)
    ++ nl :: lit "---".
Proof.
  unfold generate_frontmatter. rewrite frontmatter_lines_interior.
  assert (N := interior_nonempty self).
  unfold join_nl.
  destruct (frontmatter_interior self) as [|l ls] eqn:E; [congruence|].
  change (join [nl] (lit "---" :: (l :: ls) ++ [lit "---"]))
    with (lit "---" ++ [nl] ++ join [nl] ((l :: ls) ++ [lit "---"])).
  rewrite join_snoc by discriminate. reflexivity.
Qed.

End StripFacts.

(** X14: when no line of the generated front-matter contains [---],
    step 3 of the pipeline removes a generated block that starts the
    text: what is left is the body without its leading line breaks. *)
Theorem strip_generated_frontmatter (self : optimizer) (body : str) :
  contains (lit "---") (join_nl (frontmatter_interior self)) = false ->
  strip_frontmatter (generate_frontmatter self ++ [nl; nl] ++ body)
  = lstrip_nl body.
Proof.
  intros H. rewrite generate_frontmatter_shape.
  set (j := join_nl (frontmatter_interior self)) in *.
  unfold strip_frontmatter.
  change (startswith (lit "---")
            ((lit "---" ++ nl :: j ++ nl :: lit "---") ++ [nl; nl] ++ body))
    with true. cbv iota.
  change (split_max (lit "---") 2
            ((lit "---" ++ nl :: j ++ nl :: lit "---") ++ [nl; nl] ++ body))
    with ([] :: split_max (lit "---") 1
                  ((nl :: j ++ nl :: lit "---") ++ [nl; nl] ++ body)).
  cbn [split_max].
  replace ((nl :: j ++ nl :: lit "---") ++ [nl; nl] ++ body)
    with ((nl :: j) ++ nl :: lit "---" ++ [nl; nl] ++ body)
    by (cbn [app]; rewrite <- app_assoc; reflexivity).
  rewrite partition_at_line.
  - reflexivity.
  - simpl. exact H.
Qed.

Lemma strip_generated_frontmatter_witness :
  contains (lit "---")
    (join_nl (frontmatter_interior (init (lit "# Title") []))) = false /\
  strip_frontmatter
    (generate_frontmatter (init (lit "# Title") []) ++ [nl; nl]
     ++ lit "# Title")
  = lit "# Title".
Proof.
  split; [reflexivity|].
  exact (strip_generated_frontmatter (init (lit "# Title") [])
           (lit "# Title") eq_refl).
Defined.

(** ** Further properties of the concept extractor *)

Section TokenFacts.

Lemma search_from_hd (r : regex) (fuel : nat) :
  forall s s0 s1,
    search_from r fuel s = Some (s0, s1) -> In s1 (run r s0).
Proof.
  induction fuel as [|f IH]; intros s s0 s1; simpl.
  - destruct (run r s) as [|x xs] eqn:E; simpl; [discriminate|].
    intros [= <- <-]. rewrite E. left; reflexivity.
  - destruct (run r s) as [|x xs] eqn:E; simpl.
    + destruct (rest s); [discriminate|]. apply IH.
    + intros [= <- <-]. rewrite E. left; reflexivity.
Qed.

Lemma findall_from_in (r : regex) (fuel : nat) :
  forall s w,
    In w (findall_from r fuel s) ->
    exists s0 s1, In s1 (run r s0) /\ w = consumed s0 s1.
Proof.
  induction fuel as [|f IH]; intros s w; simpl; [intros []|].
  destruct (search_from r (length (rest s)) s) as [[s0 s1]|] eqn:E;
    [|intros []].
  destruct (length (rest s1) <? length (rest s0)); [|intros []].
  intros [<- | H].
  - exists s0, s1. split; [|reflexivity].
    eapply search_from_hd; eauto.
  - eapply IH; eauto.
Qed.

Lemma consumed_app (s s' : mstate) (a : str) :
  rest s = a ++ rest s' -> consumed s s' = a.
Proof.
  intros E. unfold consumed. rewrite E, length_app.
  replace (length a + length (rest s') - length (rest s')) with (length a)
    by lia.
  rewrite firstn_app, Nat.sub_diag, firstn_all, app_nil_r. reflexivity.
Qed.

Lemma eats_refl (p : ascii -> bool) (s : mstate) : eats p s s.
Proof. exists []. auto. Qed.

Lemma eats_trans (p : ascii -> bool) (s1 s2 s3 : mstate) :
  eats p s1 s2 -> eats p s2 s3 -> eats p s1 s3.
Proof.
  intros [a [E1 P1]] [b [E2 P2]]. exists (a ++ b).
  rewrite E1, E2, <- app_assoc, forallb_app, P1, P2. auto.
Qed.

Lemma eats_weaken (p q : ascii -> bool) (s s' : mstate) :
  (forall c, p c = true -> q c = true) -> eats p s s' -> eats q s s'.
Proof.
  intros H [a [E P]]. exists a. split; auto.
  rewrite forallb_forall in *. auto.
Qed.

(** A repetition consumes what its rounds consume. *)
Lemma rep_eats (p : ascii -> bool) (step : mstate -> list mstate) :
  (forall s s', In s' (step s) -> eats p s s') ->
  forall fuel lo hi s s',
    In s' (rep step fuel lo hi s) -> eats p s s'.
Proof.
  intros Hstep. induction fuel as [|f IH]; intros lo hi s s'; cbn [rep].
  - destruct lo; [|intros []]. intros [<- | []]. apply eats_refl.
  - rewrite in_app_iff. intros [H | H].
    + assert (H' : In s' (flat_map
                           (fun x =>
                              if length (rest x) <? length (rest s)
                              then rep step f (pred lo) (option_map pred hi) x
                              else [])
                           (step s)))
        by (destruct hi as [[|h]|]; [destruct H | exact H | exact H]).
      apply in_flat_map in H' as [x [Hx H']].
      destruct (length (rest x) <? length (rest s)); [|destruct H'].
      eapply eats_trans; [apply Hstep; exact Hx | eapply IH; exact H'].
    + destruct lo; [|destruct H]. destruct H as [<- | []].
      apply eats_refl.
Qed.

Lemma run_wordb (s s' : mstate) : In s' (run Wordb s) -> s' = s.
Proof.
  simpl. destruct (xorb _ _); [|intros []]. intros [<- | []]; reflexivity.
Qed.

Lemma upper_letter (c : ascii) : is_upper_az c = true -> is_letter c = true.
Proof. unfold is_letter. intros ->. reflexivity. Qed.

Lemma lower_letter (c : ascii) : is_lower_az c = true -> is_letter c = true.
Proof. unfold is_letter. intros ->. apply orb_true_r. Qed.

Lemma chr_eats (p : ascii -> bool) (s s' : mstate) :
  In s' (run (Chr p) s) -> eats p s s'.
Proof.
  intros H. apply run_chr in H as [x [t (E & P & ->)]].
  exists [x]. simpl. rewrite E, P. auto.
Qed.

Lemma rep_chr_eats (p : ascii -> bool) (lo : nat) (hi : option nat)
    (s s' : mstate) :
  In s' (run (Rep (Chr p) lo hi) s) ->
  exists a, rest s = a ++ rest s' /\ forallb p a = true /\ lo <= length a.
Proof.
  intros H. apply run_rep_chr in H as [a [b (E & Hlo & _ & P & ->)]].
  exists a. auto.
Qed.

Lemma camel_token (s0 s1 : mstate) :
  In s1 (run camel_re s0) -> token_shape (consumed s0 s1).
Proof.
  intros H. unfold camel_re, plus_of, star_of in H.
  apply run_cat in H as [x1 [H1 H]]. apply run_wordb in H1 as ->.
  apply run_cat in H as [x2 [H2 H]].
  apply run_chr in H2 as [u [t0 (E0 & Pu & ->)]].
  apply run_cat in H as [x3 [H3 H]].
  apply rep_chr_eats in H3 as [a [E3 [P3 _]]]. cbn [rest] in E3.
  apply run_cat in H as [x4 [H4 H]].
  apply run_wordb in H. subst x4.
  assert (E4 : eats is_letter x3 s1).
  { change (run (Rep (Cat (Chr is_upper_az) (Rep (Chr is_lower_az) 1 None))
                    0 None) x3)
      with (rep (run (Cat (Chr is_upper_az)
                        (Rep (Chr is_lower_az) 1 None)))
              (length (rest x3)) 0 None x3) in H4.
    eapply rep_eats; [|exact H4].
    intros s s' Hs. apply run_cat in Hs as [y [Hy Hs]].
    eapply eats_trans.
    - eapply eats_weaken; [exact upper_letter | apply chr_eats; exact Hy].
    - apply rep_chr_eats in Hs as [b [Eb [Pb _]]]. exists b. split; auto.
      rewrite forallb_forall in *. intros c Hc. apply lower_letter; auto. }
  destruct E4 as [b [E4 P4]].
  rewrite (consumed_app s0 s1 (u :: a ++ b)).
  - exists u, (a ++ b). repeat split; auto.
    rewrite forallb_app, P4, andb_true_r.
    rewrite forallb_forall in *. intros c Hc. apply lower_letter; auto.
  - rewrite E0, E3, E4. simpl. rewrite <- app_assoc. reflexivity.
Qed.

Lemma acronym_token (s0 s1 : mstate) :
  In s1 (run acronym_re s0) -> token_shape (consumed s0 s1).
Proof.
  intros H. unfold acronym_re in H.
  apply run_cat in H as [x1 [H1 H]]. apply run_wordb in H1 as ->.
  apply run_cat in H as [x2 [H2 H]]. apply run_wordb in H. subst x2.
  apply rep_chr_eats in H2 as [a [E [P L]]].
  rewrite (consumed_app s0 s1 a E).
  destruct a as [|u t]; [simpl in L; lia|]. simpl in P.
  apply andb_true_iff in P as [Pu Pt].
  exists u, t. repeat split; auto.
  rewrite forallb_forall in *. intros c Hc. apply upper_letter; auto.
Qed.

Lemma concept_words_tokens (self : optimizer) :
  Forall token_shape (concept_words self).
Proof.
  unfold concept_words, findall. apply Forall_app; split;
    rewrite Forall_forall; intros w H;
    apply findall_from_in in H as [s0 [s1 [H ->]]].
  - apply camel_token; exact H.
  - apply acronym_token; exact H.
Qed.

Lemma concepts_in_words (self : optimizer) (c : str) :
  In c (extract_key_concepts self) -> In c (concept_words self).
Proof.
  unfold extract_key_concepts, most_common. intros H.
  apply in_map_iff in H as [[k n] [<- H]].
  assert (H' : In (k, n) (sorted_desc (Counter (concept_words self)))).
  { rewrite <- (firstn_skipn 10 (sorted_desc _)).
    apply in_or_app; left; exact H. }
  apply (Permutation_in _ (sorted_desc_perm _)) in H'.
  apply Counter_entries in H'. simpl. tauto.
Qed.

End TokenFacts.

(** X15: every concept that the extractor returns is an upper-case
    ASCII letter followed by ASCII letters only; so a concept holds no
    whitespace, quote, colon or markup character. *)
Theorem concepts_are_letters (self : optimizer) :
  Forall token_shape (extract_key_concepts self).
Proof.
  rewrite Forall_forall. intros c H.
  apply concepts_in_words in H.
  exact (proj1 (Forall_forall _ _) (concept_words_tokens self) c H).
Qed.

Section TitleFacts.

Lemma first_h1_found (pre : list heading) (h : heading)
    (post : list heading) (default : str) :
  Forall (fun x => level x <> 1) pre -> level h = 1 ->
  first_h1 (pre ++ h :: post) default = text h.
Proof.
  intros F Hh. induction pre as [|x pre IH]; simpl.
  - rewrite Hh. reflexivity.
  - inversion F as [|? ? Hx Fp]; subst.
    destruct (level x =? 1) eqn:E; [apply Nat.eqb_eq in E; congruence|].
    apply IH; exact Fp.
Qed.

Lemma first_h1_none (hs : list heading) (default : str) :
  Forall (fun x => level x <> 1) hs -> first_h1 hs default = default.
Proof.
  induction 1 as [|x hs Hx F IH]; simpl; auto.
  destruct (level x =? 1) eqn:E; [apply Nat.eqb_eq in E; congruence|].
  exact IH.
Qed.

End TitleFacts.

(** X16: the title of the front-matter is the text of the first
    level-1 heading, wherever it stands among the headings; without a
    level-1 heading it is the stem of the source path, or [Untitled]
    for an empty source path. *)
Theorem title_is_first_h1 (self : optimizer) :
  (forall pre h post,
      extract_headings self = pre ++ h :: post ->
      Forall (fun x => level x <> 1) pre -> level h = 1 ->
      In (title_line (text h)) (frontmatter_lines self)) /\
  (Forall (fun x => level x <> 1) (extract_headings self) ->
   In (title_line (match source_path self with
                   | [] => lit "Untitled"
                   | _ => path_stem (source_path self)
                   end))
      (frontmatter_lines self)).
Proof.
  split.
  - intros pre h post E F Hh. apply frontmatter_lines_in. right; left.
    unfold title_of. rewrite E, first_h1_found by assumption. reflexivity.
  - intros F. apply frontmatter_lines_in. right; left.
    unfold title_of. rewrite first_h1_none by assumption. reflexivity.
Qed.

(** ** Further properties of the table of contents *)

Section AnchorFacts.

(** Substituting nothing for the characters of a class removes them. *)
Lemma sub_chr_filter (p : ascii -> bool) (fuel : nat) :
  forall s,
    length (rest s) < fuel ->
    sub_from (Chr p) [] fuel s = filter (fun c => negb (p c)) (rest s).
Proof.
  induction fuel as [|f IH]; intros s H; [lia|].
  destruct s as [sn [|c t] g]; [reflexivity|].
  cbn [sub_from]. rewrite run_chr_cons. cbn [rest filter] in *.
  destruct (p c); cbn [hd_error negb rest length].
  - destruct (length t <? S (length t)) eqn:L;
      [|apply Nat.ltb_ge in L; lia].
    rewrite IH by (simpl in *; lia). reflexivity.
  - rewrite IH by (simpl in *; lia). reflexivity.
Qed.

Lemma longest_le (p : ascii -> bool) (r : str) :
  longest p None r <= length r.
Proof. apply take_while_length. Qed.

Lemma longest_zero (p : ascii -> bool) (c : ascii) (t : str) :
  longest p None (c :: t) = 0 -> p c = false.
Proof. unfold longest. simpl. destruct (p c); [discriminate | auto]. Qed.

(** Substituting a dash for the runs of a class leaves dashes and
    characters outside the class. *)
Lemma sub_run_chars (q : ascii -> bool) (fuel : nat) :
  forall s,
    length (rest s) < fuel ->
    Forall (fun c => c = dash \/ (In c (rest s) /\ q c = false))
           (sub_from (plus_of (Chr q)) [dash] fuel s).
Proof.
  induction fuel as [|f IH]; intros s H; [lia|].
  cbn [sub_from]. unfold plus_of at 1. rewrite run_rep_list.
  assert (Hle := longest_le q (rest s)).
  destruct (longest q None (rest s)) as [|k] eqn:K.
  - cbn [downto Nat.eqb map hd_error].
    destruct s as [sn [|c t] g]; [constructor|]. cbn [rest] in *.
    constructor.
    + right. split; [left; reflexivity | eapply longest_zero; eauto].
    + eapply Forall_impl; [|apply IH; simpl in *; lia].
      cbn [rest]. intros x [-> | [Hx Qx]]; auto. right. split; auto.
      right; exact Hx.
  - change (downto (S k) 1) with (S k :: downto k 1).
    cbn [map hd_error rest advance].
    rewrite length_skipn.
    destruct (length (rest s) - S k <? length (rest s)) eqn:L;
      [|apply Nat.ltb_ge in L; lia].
    cbn [app]. constructor; [left; reflexivity|].
    eapply Forall_impl;
      [|apply IH; rewrite rest_advance, length_skipn; lia].
    rewrite rest_advance. intros x [-> | [Hx Qx]]; auto.
    right. split; auto.
    rewrite <- (firstn_skipn (S k) (rest s)). apply in_or_app; right.
    exact Hx.
Qed.

Lemma lower_char_not_upper (c : ascii) : is_upper_az (lower_char c) = false.
Proof. destruct c as [[] [] [] [] [] [] [] []]; reflexivity. Qed.

Lemma word_not_space (c : ascii) : is_word c = true -> is_space c = false.
Proof.
  destruct c as [[] [] [] [] [] [] [] []]; intros H;
    try reflexivity; discriminate.
Qed.

End AnchorFacts.

(** X17: the anchor of every entry of the table of contents consists of
    dashes and word characters only; it holds no whitespace and no
    upper-case ASCII letter.  The entries carry the levels and texts of
    the headings, in order. *)
Theorem toc_anchors (self : optimizer) :
  map (fun e => (toc_level e, toc_text e)) (generate_toc self)
  = map summary (extract_headings self) /\
  Forall (fun e => Forall anchor_char (anchor e)) (generate_toc self).
Proof.
  unfold generate_toc. split.
  - rewrite map_map. reflexivity.
  - rewrite Forall_forall. intros e H.
    apply in_map_iff in H as [h [<- _]]. cbn [anchor].
    unfold sub at 1.
    eapply Forall_impl;
      [|apply sub_run_chars; cbn [rest start]; lia].
    cbn [rest start]. intros c [-> | [Hc Qc]].
    + repeat split; auto.
    + unfold sub, anchor_drop_re in Hc.
      rewrite sub_chr_filter in Hc by (cbn [rest start]; lia).
      cbn [rest start] in Hc. apply filter_In in Hc as [Hc Pc].
      apply negb_true_iff, negb_false_iff in Pc.
      apply orb_false_iff in Qc as [Qd Qs].
      rewrite Qd, Qs, !orb_false_r in Pc.
      unfold anchor_char. split; [right; exact Pc|]. split.
      * apply word_not_space; exact Pc.
      * unfold lower in Hc. apply in_map_iff in Hc as [x [<- _]].
        apply lower_char_not_upper.
Qed.

(** ** The final body *)

(** X18: when the cleaned text does not begin with [---], the body from
    which the pipeline builds the front-matter has the headings of the
    normalized text, with their levels and texts, in order: the table of
    contents shows the normalized levels. *)
Theorem body_headings (content src out : str) :
  normalize_heading_hierarchy (init content src) = Some out ->
  startswith (lit "---") (remove_noise out) = false ->
  body_of (init content src) = Some (remove_noise out) /\
  map summary (extract_headings (init (remove_noise out) src))
  = map summary (extract_headings (init out src)).
Proof.
  intros Hn Hs. split.
  - unfold body_of. rewrite Hn. unfold strip_frontmatter. rewrite Hs.
    reflexivity.
  - unfold extract_headings, init, remove_noise. cbn [lines].
    apply cleaned_summaries. apply split_nl_free.
Qed.

Lemma body_headings_witness :
  normalize_heading_hierarchy
    (init (join_nl [lit "# A"; lit "***"; lit "### B"]) [])
  = Some (join_nl [lit "# A"; lit "***"; lit "## B"]) /\
  startswith (lit "---")
    (remove_noise (join_nl [lit "# A"; lit "***"; lit "## B"])) = false /\
  map summary
    (extract_headings
       (init (remove_noise (join_nl [lit "# A"; lit "***"; lit "## B"])) []))
  = map summary
      (extract_headings (init (join_nl [lit "# A"; lit "***"; lit "## B"]) [])).
Proof.
  split; [reflexivity|]. split; [reflexivity|].
  exact (proj2 (body_headings
                  (join_nl [lit "# A"; lit "***"; lit "### B"]) []
                  (join_nl [lit "# A"; lit "***"; lit "## B"])
                  eq_refl eq_refl)).
Defined.
